(** * Bounding boxes, proximity clustering and viewport crops of
      [scripts/autoslice_aerostan_t1.py]

    Coordinates are Python floats in the script.  They are embedded as exact
    rationals ([Q]): comparisons, [min] and [max] are the same on both, and
    sums, halves and quotients are taken without rounding.  The clustering
    loops and the path interpreter use the coordinates only through
    comparisons, [min], [max] and sums that are monotone with or without
    rounding.  The crops and the canvas size are different: what they
    promise are equalities between computed numbers, so they are taken on
    binary64 floats ([Binary64]), as the script runs them. *)

From Stdlib Require Import Ascii String.
From Stdlib Require Import QArith Qminmax Qround Qabs Qpower ZArith List Bool.
From Stdlib Require Import Lia Lqa.
From Stdlib Require Import Permutation Sorted.
From Stdlib Require Floats.
From Equations Require Import Equations.
Import ListNotations.

Open Scope Q_scope.

(** ** [class BBox] *)

Record BBox : Type := mkBBox {
  minx : Q;
  miny : Q;
  maxx : Q;
  maxy : Q
}.

(** [x < y] on floats, as a boolean. *)
Definition Qltb (x y : Q) : bool := negb (Qle_bool y x).

(** [BBox.union] *)
Definition union (self other : BBox) : BBox :=
  mkBBox (Qmin (minx self) (minx other))
         (Qmin (miny self) (miny other))
         (Qmax (maxx self) (maxx other))
         (Qmax (maxy self) (maxy other)).

(** [BBox.cx], [BBox.cy], [BBox.w], [BBox.h] *)
Definition cx (self : BBox) : Q := (minx self + maxx self) / 2.
Definition cy (self : BBox) : Q := (miny self + maxy self) / 2.
Definition w (self : BBox) : Q := maxx self - minx self.
Definition h (self : BBox) : Q := maxy self - miny self.

(** [BBox.overlaps] *)
Definition overlaps (self other : BBox) (pad : Q) : bool :=
  negb (Qltb (maxx self + pad) (minx other)
        || Qltb (maxx other + pad) (minx self)
        || Qltb (maxy self + pad) (miny other)
        || Qltb (maxy other + pad) (miny self)).

(** ** [cluster_bboxes]

    The two loops only use the boxes through [c.overlaps(b, pad=proximity)]
    and [c.union(b)].  They are written once over these two methods, [near]
    and [join], and [cluster_bboxes] is their instance at [BBox]. *)

(** A value together with the equation that names it, so that the branch
    taken on a pass keeps the result of that pass in its context. *)
Definition inspect {A : Type} (a : A) : {b : A | a = b} := exist _ a eq_refl.

Section Clustering.

Context {A : Type}.
Variable near : A -> A -> bool.
Variable join : A -> A -> A.

(** The inner [for i, c in enumerate(clusters)] loop: the first cluster
    that is near [b] is replaced by its union with [b]; [None] when the loop
    ends without a [break]. *)
Fixpoint merge_first (b : A) (clusters : list A) : option (list A) :=
  match clusters with
  | [] => None
  | c :: rest =>
      if near c b then Some (join c b :: rest)
      else option_map (cons c) (merge_first b rest)
  end.

(** One iteration of the first [for b in bboxes] loop. *)
Definition greedy_step (clusters : list A) (b : A) : list A :=
  match merge_first b clusters with
  | Some clusters' => clusters'
  | None => clusters ++ [b]
  end.

Definition greedy (bboxes : list A) : list A :=
  fold_left greedy_step bboxes [].

(** One iteration of the [for b in clusters] loop of a pass; the loop state
    is [(out, changed)]. *)
Definition pass_step (st : list A * bool) (b : A) : list A * bool :=
  match merge_first b (fst st) with
  | Some out' => (out', true)
  | None => (fst st ++ [b], snd st)
  end.

(** The body of [while changed], entered with [changed = False] and
    [out = []]. *)
Definition merge_pass (clusters : list A) : list A * bool :=
  fold_left pass_step clusters ([], false).

Lemma merge_first_length b clusters out :
  merge_first b clusters = Some out -> length out = length clusters.
Proof.
  revert out; induction clusters as [|c rest IH]; intros out; simpl.
  - discriminate.
  - destruct (near c b).
    + intros [= <-]. reflexivity.
    + destruct (merge_first b rest) as [r|]; simpl; [|discriminate].
      intros [= <-]. simpl. f_equal. apply IH. reflexivity.
Qed.

(** Length bookkeeping of a pass from an arbitrary loop state: a merge
    keeps [out] as long as it was, so a pass that sets [changed] ends with
    fewer boxes than it has read. *)
Lemma pass_fold_length clusters out0 ch0 out ch :
  fold_left pass_step clusters (out0, ch0) = (out, ch) ->
  (length out <= length out0 + length clusters)%nat /\
  (ch = true -> ch0 = false ->
   (length out < length out0 + length clusters)%nat) /\
  (ch0 = true -> ch = true).
Proof.
  revert out0 ch0; induction clusters as [|b rest IH]; intros out0 ch0; simpl.
  - intros [= <- <-]. repeat split; intros; try lia; congruence.
  - unfold pass_step at 2. simpl.
    destruct (merge_first b out0) as [out'|] eqn:E; intros F.
    + apply merge_first_length in E.
      destruct (IH _ _ F) as (H1 & _ & H3).
      repeat split; intros; auto; lia.
    + destruct (IH _ _ F) as (H1 & H2 & H3).
      rewrite length_app in H1, H2. simpl in H1, H2.
      repeat split; intros; auto; try lia.
      specialize (H2 H H0). lia.
Qed.

Lemma merge_pass_decreases clusters out :
  merge_pass clusters = (out, true) -> (length out < length clusters)%nat.
Proof.
  intros E. apply pass_fold_length in E. simpl in E.
  destruct E as (_ & H & _). auto.
Qed.

(** The [while changed] loop.  It recurses on the output of a pass that has
    merged something, which is shorter than the input of that pass. *)
Equations? stabilize (clusters : list A) : list A
  by wf (length clusters) lt :=
  stabilize clusters with inspect (merge_pass clusters) := {
    | exist _ (out, true) E => stabilize out
    | exist _ (out, false) E => out }.
Proof. apply merge_pass_decreases; assumption. Qed.

Definition cluster (bboxes : list A) : list A := stabilize (greedy bboxes).

(** Two boxes the overlap test keeps apart. *)
Definition apart (a b : A) : Prop := near a b = false.

Lemma stabilize_changed clusters out :
  merge_pass clusters = (out, true) -> stabilize clusters = stabilize out.
Proof.
  intros H. funelim (stabilize clusters); congruence.
Qed.

Lemma stabilize_stable clusters out :
  merge_pass clusters = (out, false) -> stabilize clusters = out.
Proof.
  intros H. funelim (stabilize clusters); congruence.
Qed.

Lemma merge_first_None b clusters :
  merge_first b clusters = None <-> Forall (fun c => apart c b) clusters.
Proof.
  unfold apart. induction clusters as [|c rest IH]; simpl.
  - split; auto.
  - destruct (near c b) eqn:E.
    + split; [discriminate|]. intros H. inversion H; congruence.
    + destruct (merge_first b rest); simpl.
      * split; [discriminate|]. intros H. inversion H; subst.
        apply IH in H3. discriminate.
      * split; auto. intros _. constructor; auto. apply IH; reflexivity.
Qed.

Lemma merge_first_Some b clusters out :
  merge_first b clusters = Some out ->
  exists pre c post,
    clusters = pre ++ c :: post /\ out = pre ++ join c b :: post /\
    near c b = true /\ Forall (fun c' => apart c' b) pre.
Proof.
  revert out; induction clusters as [|c rest IH]; intros out; simpl.
  - discriminate.
  - destruct (near c b) eqn:E.
    + intros [= <-]. exists [], c, rest. repeat split; auto.
    + destruct (merge_first b rest) as [r|]; simpl; [|discriminate].
      intros [= <-]. destruct (IH r eq_refl) as (pre & c' & post & -> & -> & N & F).
      exists (c :: pre), c', post. repeat split; auto.
Qed.

Lemma ForallOrdPairs_snoc (R : A -> A -> Prop) l b :
  ForallOrdPairs R l -> Forall (fun c => R c b) l ->
  ForallOrdPairs R (l ++ [b]).
Proof.
  induction 1 as [|a l Ha Hl IH]; intros F; simpl.
  - repeat constructor.
  - inversion F; subst. constructor; auto.
    apply Forall_app; split; auto.
Qed.

(** A pass that ends with [changed] still false has appended every box it
    read, each one apart from all the boxes before it. *)
Lemma pass_fold_unchanged clusters out0 ch0 out :
  fold_left pass_step clusters (out0, ch0) = (out, false) ->
  out = out0 ++ clusters /\
  (ForallOrdPairs apart out0 -> ForallOrdPairs apart out).
Proof.
  revert out0 ch0; induction clusters as [|b rest IH]; intros out0 ch0; simpl.
  - intros [= <- _]. rewrite app_nil_r. auto.
  - unfold pass_step at 2. simpl.
    destruct (merge_first b out0) as [out'|] eqn:E; intros F.
    + apply pass_fold_length in F. destruct F as (_ & _ & F).
      specialize (F eq_refl). discriminate.
    + destruct (IH _ _ F) as (-> & H). split.
      * rewrite <- app_assoc. reflexivity.
      * intros P. apply H. apply ForallOrdPairs_snoc; auto.
        apply merge_first_None; assumption.
Qed.

Lemma merge_pass_unchanged clusters out :
  merge_pass clusters = (out, false) ->
  out = clusters /\ ForallOrdPairs apart clusters.
Proof.
  intros E. apply pass_fold_unchanged in E. destruct E as (-> & H).
  simpl. split; auto. apply H. constructor.
Qed.

(** What comes out of the loop is the input of a pass that merged nothing. *)
Lemma stabilize_fixed clusters :
  merge_pass (stabilize clusters) = (stabilize clusters, false).
Proof.
  funelim (stabilize clusters).
  - assumption.
  - destruct (merge_pass_unchanged _ _ E) as (-> & _). assumption.
Qed.

Lemma stabilize_apart clusters : ForallOrdPairs apart (stabilize clusters).
Proof. apply (merge_pass_unchanged _ _ (stabilize_fixed clusters)). Qed.

Lemma cluster_apart bboxes : ForallOrdPairs apart (cluster bboxes).
Proof. apply stabilize_apart. Qed.

(** *** Properties that merging keeps *)

Section Closed.

Variable P : A -> Prop.
Hypothesis P_join : forall c b, near c b = true -> P c -> P b -> P (join c b).

Lemma merge_first_closed b clusters out :
  merge_first b clusters = Some out -> P b -> Forall P clusters -> Forall P out.
Proof.
  intros E Pb F. apply merge_first_Some in E.
  destruct E as (pre & c & post & -> & -> & N & _).
  apply Forall_app in F. destruct F as (F1 & F2). inversion F2; subst.
  apply Forall_app; split; auto.
Qed.

Lemma greedy_step_closed clusters b :
  P b -> Forall P clusters -> Forall P (greedy_step clusters b).
Proof.
  intros Pb F. unfold greedy_step.
  destruct (merge_first b clusters) eqn:E.
  - eapply merge_first_closed; eauto.
  - apply Forall_app; split; auto.
Qed.

Lemma greedy_fold_closed bboxes clusters :
  Forall P bboxes -> Forall P clusters ->
  Forall P (fold_left greedy_step bboxes clusters).
Proof.
  revert clusters; induction bboxes as [|b rest IH]; intros clusters Fb Fc; simpl.
  - assumption.
  - inversion Fb; subst. apply IH; auto. apply greedy_step_closed; auto.
Qed.

Lemma pass_fold_closed clusters st :
  Forall P clusters -> Forall P (fst st) ->
  Forall P (fst (fold_left pass_step clusters st)).
Proof.
  revert st; induction clusters as [|b rest IH]; intros st Fb Fc; simpl.
  - assumption.
  - inversion Fb; subst. apply IH; auto. unfold pass_step.
    destruct (merge_first b (fst st)) eqn:E; simpl.
    + eapply merge_first_closed; eauto.
    + apply Forall_app; split; auto.
Qed.

Lemma stabilize_closed clusters :
  Forall P clusters -> Forall P (stabilize clusters).
Proof.
  funelim (stabilize clusters); intros F.
  - apply H. pose proof (pass_fold_closed clusters ([], false) F) as G.
    fold (merge_pass clusters) in G. rewrite E in G. apply G. constructor.
  - destruct (merge_pass_unchanged _ _ E) as (-> & _). assumption.
Qed.

Lemma cluster_closed bboxes : Forall P bboxes -> Forall P (cluster bboxes).
Proof.
  intros F. apply stabilize_closed. apply greedy_fold_closed; auto.
Qed.

End Closed.

(** *** Every box that goes in lies inside a box that comes out *)

Section Inside.

(** [le a b]: [a] lies inside [b]. *)
Variable le : A -> A -> Prop.
Hypothesis le_refl : forall a, le a a.
Hypothesis le_trans : forall a b c, le a b -> le b c -> le a c.
Hypothesis join_l : forall a b, le a (join a b).
Hypothesis join_r : forall a b, le b (join a b).
Hypothesis join_lub : forall a b c, le a c -> le b c -> le (join a b) c.

Definition covered (clusters : list A) (x : A) : Prop :=
  exists c, In c clusters /\ le x c.

Lemma merge_first_covers b clusters out :
  merge_first b clusters = Some out ->
  covered out b /\ forall x, covered clusters x -> covered out x.
Proof.
  intros E. apply merge_first_Some in E.
  destruct E as (pre & c & post & -> & -> & _ & _). split.
  - exists (join c b). split; auto. apply in_elt.
  - intros x (d & Hd & Hx). apply in_app_or in Hd. destruct Hd as [Hd|[->|Hd]].
    + exists d. split; auto. apply in_or_app; auto.
    + exists (join d b). split; [apply in_elt|]. eapply le_trans; eauto.
    + exists d. split; auto. apply in_or_app; right; right; auto.
Qed.

Lemma greedy_step_covers clusters b :
  covered (greedy_step clusters b) b /\
  forall x, covered clusters x -> covered (greedy_step clusters b) x.
Proof.
  unfold greedy_step. destruct (merge_first b clusters) eqn:E.
  - eapply merge_first_covers; eauto.
  - split.
    + exists b. split; auto. apply in_or_app; right; left; auto.
    + intros x (d & Hd & Hx). exists d. split; auto. apply in_or_app; auto.
Qed.

Lemma greedy_fold_covers bboxes clusters x :
  covered clusters x \/ (exists b, In b bboxes /\ le x b) ->
  covered (fold_left greedy_step bboxes clusters) x.
Proof.
  revert clusters; induction bboxes as [|b rest IH]; intros clusters; simpl.
  - intros [H|(b & [] & _)]. assumption.
  - intros H. apply IH.
    destruct (greedy_step_covers clusters b) as (Hb & Hc).
    destruct H as [H|(b' & [<-|Hin] & Hx)].
    + left; auto.
    + left. destruct Hb as (d & Hd & Hbd). exists d. split; eauto.
    + right. exists b'. auto.
Qed.

Lemma pass_fold_covers clusters st x :
  covered (fst st) x \/ (exists b, In b clusters /\ le x b) ->
  covered (fst (fold_left pass_step clusters st)) x.
Proof.
  revert st; induction clusters as [|b rest IH]; intros st; simpl.
  - intros [H|(b & [] & _)]. assumption.
  - intros H. apply IH.
    assert (covered (fst (pass_step st b)) b /\
            forall y, covered (fst st) y -> covered (fst (pass_step st b)) y)
      as (Hb & Hc).
    { unfold pass_step. destruct (merge_first b (fst st)) eqn:E; simpl.
      - eapply merge_first_covers; eauto.
      - split.
        + exists b. split; auto. apply in_or_app; right; left; auto.
        + intros y (d & Hd & Hy). exists d. split; auto. apply in_or_app; auto. }
    destruct H as [H|(b' & [<-|Hin] & Hx)].
    + left; auto.
    + left. destruct Hb as (d & Hd & Hbd). exists d. split; eauto.
    + right. exists b'. auto.
Qed.

Lemma stabilize_covers clusters x :
  covered clusters x -> covered (stabilize clusters) x.
Proof.
  funelim (stabilize clusters); intros C.
  - apply H. pose proof (pass_fold_covers clusters ([], false) x) as G.
    fold (merge_pass clusters) in G. rewrite E in G. apply G. right. exact C.
  - destruct (merge_pass_unchanged _ _ E) as (-> & _). assumption.
Qed.

Lemma cluster_covers bboxes b : In b bboxes -> covered (cluster bboxes) b.
Proof.
  intros H. apply stabilize_covers. apply greedy_fold_covers.
  right. exists b. auto.
Qed.

(** Two boxes that are near each other lie inside the same cluster, as soon
    as the clusters are pairwise apart. *)
Hypothesis near_sym : forall a b, near a b = near b a.
Hypothesis near_mono :
  forall a b a' b', near a b = true -> le a a' -> le b b' -> near a' b' = true.

Lemma apart_near_same clusters s t :
  ForallOrdPairs apart clusters -> In s clusters -> In t clusters ->
  near s t = true -> s = t.
Proof.
  intros F Hs Ht N.
  destruct (ForallOrdPairs_In F _ _ Hs Ht) as [H|[H|H]]; auto;
    unfold apart in H; [|rewrite near_sym in H]; congruence.
Qed.

Lemma covered_near_same clusters a b t :
  ForallOrdPairs apart clusters -> In t clusters -> le a t ->
  covered clusters b -> near a b = true -> le b t.
Proof.
  intros F Ht Ha (t' & Ht' & Hb) N.
  assert (t = t') as ->; auto.
  eapply apart_near_same; eauto.
Qed.

(** A family of boxes that are pairwise apart and cover the input covers
    every cluster built from the input. *)
Lemma cluster_least family bboxes :
  ForallOrdPairs apart family ->
  (forall b, In b bboxes -> covered family b) ->
  forall c, In c (cluster bboxes) -> covered family c.
Proof.
  intros F C. apply Forall_forall. apply cluster_closed.
  - intros c b N (s & Hs & Hc) (t & Ht & Hb).
    assert (s = t) as <- by (eapply apart_near_same; eauto).
    exists s. split; auto.
  - apply Forall_forall. assumption.
Qed.

End Inside.

(** *** Merging moves members around and loses none *)

Section Members.

(** [members c]: the input boxes (by position) a cluster was built from. *)
Variable members : A -> list nat.
Hypothesis members_join : forall c b, members (join c b) = members c ++ members b.

Lemma merge_first_members b clusters out :
  merge_first b clusters = Some out ->
  Permutation (flat_map members out) (flat_map members clusters ++ members b).
Proof.
  intros E. apply merge_first_Some in E.
  destruct E as (pre & c & post & -> & -> & _ & _).
  rewrite !flat_map_app. simpl. rewrite members_join, <- !app_assoc.
  apply Permutation_app_head, Permutation_app_head, Permutation_app_comm.
Qed.

Lemma greedy_step_members clusters b :
  Permutation (flat_map members (greedy_step clusters b))
              (flat_map members clusters ++ members b).
Proof.
  unfold greedy_step. destruct (merge_first b clusters) eqn:E.
  - apply merge_first_members; assumption.
  - rewrite flat_map_app. simpl. rewrite app_nil_r. reflexivity.
Qed.

Lemma greedy_fold_members bboxes clusters :
  Permutation (flat_map members (fold_left greedy_step bboxes clusters))
              (flat_map members clusters ++ flat_map members bboxes).
Proof.
  revert clusters; induction bboxes as [|b rest IH]; intros clusters; simpl.
  - rewrite app_nil_r. reflexivity.
  - rewrite IH, greedy_step_members, <- app_assoc. reflexivity.
Qed.

Lemma pass_fold_members clusters st :
  Permutation (flat_map members (fst (fold_left pass_step clusters st)))
              (flat_map members (fst st) ++ flat_map members clusters).
Proof.
  revert st; induction clusters as [|b rest IH]; intros st; simpl.
  - rewrite app_nil_r. reflexivity.
  - rewrite IH, app_assoc. apply Permutation_app_tail.
    unfold pass_step. destruct (merge_first b (fst st)) eqn:E; simpl.
    + apply merge_first_members; assumption.
    + rewrite flat_map_app. simpl. rewrite app_nil_r. reflexivity.
Qed.

Lemma stabilize_members clusters :
  Permutation (flat_map members (stabilize clusters)) (flat_map members clusters).
Proof.
  funelim (stabilize clusters).
  - rewrite H. pose proof (pass_fold_members clusters ([], false)) as G.
    fold (merge_pass clusters) in G. rewrite E in G. exact G.
  - destruct (merge_pass_unchanged _ _ E) as (-> & _). reflexivity.
Qed.

Lemma cluster_members_perm bboxes :
  Permutation (flat_map members (cluster bboxes)) (flat_map members bboxes).
Proof.
  unfold cluster. rewrite stabilize_members.
  unfold greedy. rewrite greedy_fold_members. reflexivity.
Qed.

End Members.

(** *** Counting the passes of the loop *)

(** The clusters after [n] passes. *)
Fixpoint passes (n : nat) (clusters : list A) : list A :=
  match n with
  | O => clusters
  | S n' => passes n' (fst (merge_pass clusters))
  end.

Lemma stabilize_passes clusters :
  exists n, (n <= length clusters)%nat /\
    (forall k, (k < n)%nat -> snd (merge_pass (passes k clusters)) = true) /\
    merge_pass (passes n clusters) = (stabilize clusters, false).
Proof.
  funelim (stabilize clusters).
  - destruct H as (n & Hn & Hk & Hend).
    pose proof (merge_pass_decreases _ _ E) as D.
    exists (S n). simpl. rewrite E. simpl. split; [lia|]. split; [|assumption].
    intros [|k] Hlt; simpl; rewrite E; simpl; auto. apply Hk. lia.
  - exists 0%nat. simpl. split; [lia|]. split; [intros k Hk; lia|].
    destruct (merge_pass_unchanged _ _ E) as (-> & _). assumption.
Qed.

Lemma ForallOrdPairs_nth (R : A -> A -> Prop) l i j a b :
  ForallOrdPairs R l -> (i < j)%nat ->
  nth_error l i = Some a -> nth_error l j = Some b -> R a b.
Proof.
  intros F. revert i j. induction F as [|c l Hc Hl IH]; intros i j Hij Hi Hj.
  - destruct i; discriminate.
  - destruct j as [|j]; [lia|]. simpl in Hj. destruct i as [|i]; simpl in Hi.
    + injection Hi as <-. rewrite Forall_forall in Hc. apply Hc.
      eapply nth_error_In; eauto.
    + apply (IH i j); auto. lia.
Qed.

End Clustering.

(** The loops commute with a map that respects the two methods. *)
Section ClusteringMap.

Context {A B : Type}.
Variables (nearA : A -> A -> bool) (joinA : A -> A -> A).
Variables (nearB : B -> B -> bool) (joinB : B -> B -> B).
Variable f : A -> B.
Hypothesis f_near : forall c b, nearB (f c) (f b) = nearA c b.
Hypothesis f_join : forall c b, f (joinA c b) = joinB (f c) (f b).

Lemma merge_first_map b clusters :
  merge_first nearB joinB (f b) (map f clusters) =
  option_map (map f) (merge_first nearA joinA b clusters).
Proof.
  induction clusters as [|c rest IH]; simpl; auto.
  rewrite f_near. destruct (nearA c b); simpl.
  - rewrite f_join. reflexivity.
  - rewrite IH. destruct (merge_first nearA joinA b rest); reflexivity.
Qed.

Lemma greedy_fold_map bboxes clusters :
  fold_left (greedy_step nearB joinB) (map f bboxes) (map f clusters) =
  map f (fold_left (greedy_step nearA joinA) bboxes clusters).
Proof.
  revert clusters; induction bboxes as [|b rest IH]; intros clusters; simpl; auto.
  rewrite <- IH. f_equal. unfold greedy_step. rewrite merge_first_map.
  destruct (merge_first nearA joinA b clusters); simpl; auto.
  rewrite map_app. reflexivity.
Qed.

Lemma pass_fold_map clusters out ch :
  fold_left (pass_step nearB joinB) (map f clusters) (map f out, ch) =
  (map f (fst (fold_left (pass_step nearA joinA) clusters (out, ch))),
   snd (fold_left (pass_step nearA joinA) clusters (out, ch))).
Proof.
  revert out ch; induction clusters as [|b rest IH]; intros out ch; simpl; auto.
  unfold pass_step at 2 4 6. simpl. rewrite merge_first_map.
  destruct (merge_first nearA joinA b out); simpl.
  - apply IH.
  - rewrite <- IH, map_app. reflexivity.
Qed.

Lemma merge_pass_map clusters :
  merge_pass nearB joinB (map f clusters) =
  (map f (fst (merge_pass nearA joinA clusters)),
   snd (merge_pass nearA joinA clusters)).
Proof. exact (pass_fold_map clusters [] false). Qed.

Lemma stabilize_map clusters :
  stabilize nearB joinB (map f clusters) = map f (stabilize nearA joinA clusters).
Proof.
  funelim (stabilize nearA joinA clusters).
  - rewrite <- H. apply stabilize_changed.
    rewrite merge_pass_map, E. reflexivity.
  - apply stabilize_stable. rewrite merge_pass_map, E. reflexivity.
Qed.

Lemma cluster_map bboxes :
  cluster nearB joinB (map f bboxes) = map f (cluster nearA joinA bboxes).
Proof.
  unfold cluster, greedy. rewrite <- stabilize_map. f_equal.
  apply (greedy_fold_map bboxes []).
Qed.

End ClusteringMap.

Definition cluster_bboxes (bboxes : list BBox) (proximity : Q) : list BBox :=
  cluster (fun c b => overlaps c b proximity) union bboxes.



(** *** Which input boxes a cluster was built from

    The script keeps only the boxes.  To speak about the input boxes a
    cluster has absorbed, the same loops are run on boxes that carry the
    positions (in the input list) of the boxes merged into them: the overlap
    test looks at the box alone, a union appends the positions. *)

Definition tagged : Type := BBox * list nat.

Definition near_tagged (proximity : Q) (c b : tagged) : bool :=
  overlaps (fst c) (fst b) proximity.

Definition union_tagged (c b : tagged) : tagged :=
  (union (fst c) (fst b), snd c ++ snd b).

(** Every input box with its own position, counted from [k]. *)
Fixpoint numbered_from (k : nat) (bboxes : list BBox) : list tagged :=
  match bboxes with
  | [] => []
  | b :: rest => (b, [k]) :: numbered_from (S k) rest
  end.

Definition numbered (bboxes : list BBox) : list tagged :=
  numbered_from 0 bboxes.

Definition cluster_members (bboxes : list BBox) (proximity : Q) : list tagged :=
  cluster (near_tagged proximity) union_tagged (numbered bboxes).

(** ** [bbox_from_path_d] *)

(** *** Tokens

    [re.findall] returns the substrings that match the pattern, left to
    right.  A match of the first alternative is one of the twenty command
    letters; a match of the second is a decimal literal, kept here as the
    number [float] reads from it.  Paths are ASCII text, and a literal beyond
    the largest float, which [float] reads as an infinity, is outside what
    [Number] can hold. *)

Inductive token : Type :=
| Letter (c : ascii)
| Number (v : Q).

(** [c in s] for a one-character string [c]. *)
Fixpoint in_str (c : ascii) (s : string) : bool :=
  match s with
  | EmptyString => false
  | String d s' => Ascii.eqb c d || in_str c s'
  end.

(** The class [[MmLlHhVvCcSsQqTtAaZz]] of the pattern. *)
Definition is_command (c : ascii) : bool :=
  in_str c "MmLlHhVvCcSsQqTtAaZz".

(** [\d] *)
Definition is_digit (c : ascii) : bool :=
  (48 <=? nat_of_ascii c)%nat && (nat_of_ascii c <=? 57)%nat.

(** The longest run of digits at the head of [s], and what follows it. *)
Fixpoint digits (s : string) : string * string :=
  match s with
  | EmptyString => (EmptyString, EmptyString)
  | String c s' =>
      if is_digit c
      then let (ds, r) := digits s' in (String c ds, r)
      else (EmptyString, s)
  end.

Definition nonempty (s : string) : bool :=
  match s with EmptyString => false | String _ _ => true end.

(** The value of a run of digits, read with the accumulator [acc]. *)
Fixpoint Z_of_digits (acc : Z) (ds : string) : Z :=
  match ds with
  | EmptyString => acc
  | String c ds' => Z_of_digits (10 * acc + Z.of_nat (nat_of_ascii c - 48)) ds'
  end.

(** [[-+]?]: is the number negative, and what follows the sign. *)
Definition sign (s : string) : bool * string :=
  match s with
  | String c r =>
      if Ascii.eqb c "-" then (true, r)
      else if Ascii.eqb c "+" then (false, r)
      else (false, s)
  | EmptyString => (false, s)
  end.

Definition signed (neg : bool) (z : Z) : Z := if neg then (- z)%Z else z.

(** [(?:\d*\.\d+|\d+)]: the digits of the mantissa, how many of them stand
    after the point, and what follows. *)
Definition mantissa (s : string) : option (string * nat * string) :=
  let (ip, s2) := digits s in
  let whole := if nonempty ip then Some (ip, 0%nat, s2) else None in
  match s2 with
  | String "." s3 =>
      let (fp, s4) := digits s3 in
      if nonempty fp then Some ((ip ++ fp)%string, String.length fp, s4)
      else whole
  | _ => whole
  end.

(** [(?:[eE][-+]?\d+)?]: the exponent (0 when there is none) and what
    follows. *)
Definition exponent (s : string) : Z * string :=
  match s with
  | String c s1 =>
      if in_str c "eE" then
        let (neg, s2) := sign s1 in
        let (ed, s3) := digits s2 in
        if nonempty ed then (signed neg (Z_of_digits 0 ed), s3) else (0%Z, s)
      else (0%Z, s)
  | EmptyString => (0%Z, s)
  end.

(** [m * 10^e] *)
Definition decimal (m e : Z) : Q :=
  if (0 <=? e)%Z then inject_Z (m * 10 ^ e)
  else Qmake m (Z.to_pos (10 ^ (- e))).

(** A match of the number alternative at the head of [s]: the number read
    and the rest of the string. *)
Definition match_number (s : string) : option (Q * string) :=
  let (neg, s1) := sign s in
  match mantissa s1 with
  | None => None
  | Some (ds, frac, s2) =>
      let (e, s3) := exponent s2 in
      Some (decimal (signed neg (Z_of_digits 0 ds)) (e - Z.of_nat frac), s3)
  end.

(** One step of [re.findall] at the head of a non-empty string [String c r]:
    a token and the string after it, or no match here. *)
Definition scan (c : ascii) (r : string) : option (token * string) :=
  if is_command c then Some (Letter c, r)
  else match match_number (String c r) with
       | Some (v, rest) => Some (Number v, rest)
       | None => None
       end.

Lemma digits_length s :
  String.length s =
  (String.length (fst (digits s)) + String.length (snd (digits s)))%nat.
Proof.
  induction s as [|c s IH]; simpl; auto.
  destruct (is_digit c); simpl; auto.
  destruct (digits s); simpl in *. lia.
Qed.

Lemma sign_length s : (String.length (snd (sign s)) <= String.length s)%nat.
Proof.
  destruct s as [|c r]; simpl; auto. unfold sign.
  destruct (Ascii.eqb c "-"); simpl; auto.
  destruct (Ascii.eqb c "+"); simpl; auto.
Qed.

Lemma exponent_length s :
  (String.length (snd (exponent s)) <= String.length s)%nat.
Proof.
  destruct s as [|c s1]; [simpl; auto|]. unfold exponent.
  destruct (in_str c "eE"); [|simpl; lia].
  pose proof (sign_length s1) as S. destruct (sign s1) as [neg s2].
  pose proof (digits_length s2) as D. destruct (digits s2) as [ed s3].
  simpl in S, D. destruct (nonempty ed); simpl; lia.
Qed.

Lemma mantissa_length s ds frac r :
  mantissa s = Some (ds, frac, r) -> (String.length r < String.length s)%nat.
Proof.
  unfold mantissa. pose proof (digits_length s) as L.
  destruct (digits s) as [ip s2]; simpl in L.
  assert (W : (if nonempty ip then Some (ip, 0%nat, s2) else None)
              = Some (ds, frac, r) -> (String.length r < String.length s)%nat).
  { destruct ip; simpl; [discriminate|]. intros [= <- <- <-]. simpl in L. lia. }
  destruct s2 as [|c s3]; auto.
  destruct (Ascii.eqb c ".") eqn:Ec.
  - apply Ascii.eqb_eq in Ec. subst c.
    pose proof (digits_length s3) as L3.
    destruct (digits s3) as [fp s4]; simpl in L3.
    destruct (nonempty fp); auto. intros [= <- <- <-]. simpl in L. lia.
  - destruct c as [[] [] [] [] [] [] [] []]; auto; discriminate.
Qed.

Lemma scan_length c r t rest :
  scan c r = Some (t, rest) -> (String.length rest <= String.length r)%nat.
Proof.
  unfold scan. destruct (is_command c).
  - intros [= <- <-]. lia.
  - unfold match_number. pose proof (sign_length (String c r)) as S.
    destruct (sign (String c r)) as [neg s1]; simpl in S.
    destruct (mantissa s1) as [[[ds frac] s2]|] eqn:M; [|discriminate].
    apply mantissa_length in M. pose proof (exponent_length s2) as X.
    destruct (exponent s2) as [e s3]; simpl in X. intros [= <- <-]. lia.
Qed.

(** [re.findall(pattern, d)]: after a match the scan resumes where the match
    ended; where nothing matches it moves on by one character. *)
Equations? tokenize (d : string) : list token by wf (String.length d) lt :=
  tokenize EmptyString := [];
  tokenize (String c r) with inspect (scan c r) := {
    | exist _ (Some (t, rest)) E => t :: tokenize rest
    | exist _ None E => tokenize r }.
Proof. apply scan_length in E. lia. Qed.

(** *** The interpreter loop *)

(** The local variables of [bbox_from_path_d].  [minx], [miny], [maxx] and
    [maxy] start at [inf], [inf], [-inf], [-inf] and [add_point] folds every
    point into all four at once, so they are kept together in [acc]: [None]
    while the four infinities are still in place, the box of the points added
    so far afterwards.  (A literal too large for a float, which [float] reads
    as [inf], has no counterpart among the rationals.) *)
Record state : Type := mkState {
  x : Q;
  y : Q;
  start_x : Q;
  start_y : Q;
  acc : option BBox;
  cmd : option ascii
}.

Definition initial : state := mkState 0 0 0 0 None None.

(** What the function does at the end: it returns, or [float] has raised
    [ValueError] on the way. *)
Inductive result : Type :=
| Returned (bb : option BBox)
| ValueError.

(** [add_point]: [min(inf, px)] and [max(-inf, px)] are [px]. *)
Definition add_point (px py : Q) (a : option BBox) : option BBox :=
  match a with
  | None => Some (mkBBox px py px py)
  | Some b =>
      Some (mkBBox (Qmin (minx b) px) (Qmin (miny b) py)
                   (Qmax (maxx b) px) (Qmax (maxy b) py))
  end.

(** [take_numbers(i, n)] on the tokens from position [i] on: the numbers read
    and the tokens left.  [float(tokens[i])] raises [ValueError] ([None]) on
    a command letter. *)
Fixpoint take_numbers (toks : list token) (n : nat) {struct n}
  : option (list Q * list token) :=
  match n with
  | O => Some ([], toks)
  | S n' =>
      match toks with
      | [] => Some ([], toks)
      | Letter _ :: _ => None
      | Number v :: rest =>
          match take_numbers rest n' with
          | None => None
          | Some (out, rest') => Some (v :: out, rest')
          end
      end
  end.

(** How one iteration of [while i < len(tokens)] ends. *)
Inductive outcome : Type :=
| Continue (st : state) (toks : list token)
| Break (st : state)
| Raise.

(** Every branch that reads numbers has the same shape:
    [nums, i = take_numbers(i, n)], then [break] when there are too few of
    them, else the update of the branch and [continue].  [update] is [None]
    for the [break]. *)
Definition numbers_then (st : state) (toks : list token) (n : nat)
    (update : list Q -> option state) : outcome :=
  match take_numbers toks n with
  | None => Raise
  | Some (nums, toks') =>
      match update nums with
      | Some st' => Continue st' toks'
      | None => Break st
      end
  end.

(** [x, y = nx, ny; add_point(x, y)], as after [L], [T] and [A]. *)
Definition line_to (st : state) (nx ny : Q) : state :=
  mkState nx ny (start_x st) (start_y st) (add_point nx ny (acc st)) (cmd st).

(** [add_point(px, py)] with the cursor left where it is. *)
Definition visit (st : state) (px py : Q) : state :=
  mkState (x st) (y st) (start_x st) (start_y st) (add_point px py (acc st))
          (cmd st).

(** [nx += x], [ny += y] under the relative form [rel] of a command. *)
Definition offset (c rel : ascii) (base v : Q) : Q :=
  if Ascii.eqb c rel then v + base else v.

Open Scope string_scope.

(** The branch of the command [c] for [nums], from the state [st]. *)
Definition move (c : ascii) (st : state) (nums : list Q) : option state :=
  match nums with
  | [nx; ny] =>
      let nx := offset c "m" (x st) nx in
      let ny := offset c "m" (y st) ny in
      Some (mkState nx ny nx ny (add_point nx ny (acc st))
                    (Some (if Ascii.eqb c "M" then "L" else "l")%char))
  | _ => None
  end.

Definition line (rel : ascii) (c : ascii) (st : state) (nums : list Q)
  : option state :=
  match nums with
  | [nx; ny] =>
      Some (line_to st (offset c rel (x st) nx) (offset c rel (y st) ny))
  | _ => None
  end.

Definition horizontal (c : ascii) (st : state) (nums : list Q)
  : option state :=
  match nums with
  | [] => None
  | n0 :: _ =>
      Some (line_to st (n0 + (if Ascii.eqb c "h" then x st else 0)) (y st))
  end.

Definition vertical (c : ascii) (st : state) (nums : list Q) : option state :=
  match nums with
  | [] => None
  | n0 :: _ =>
      Some (line_to st (x st) (n0 + (if Ascii.eqb c "v" then y st else 0)))
  end.

Definition cubic (c : ascii) (st : state) (nums : list Q) : option state :=
  match nums with
  | [x1; y1; x2; y2; nx; ny] =>
      let st1 := visit st (offset c "c" (x st) x1) (offset c "c" (y st) y1) in
      let st2 := visit st1 (offset c "c" (x st) x2) (offset c "c" (y st) y2) in
      Some (line_to st2 (offset c "c" (x st) nx) (offset c "c" (y st) ny))
  | _ => None
  end.

Definition one_control (rel : ascii) (c : ascii) (st : state) (nums : list Q)
  : option state :=
  match nums with
  | [x1; y1; nx; ny] =>
      let st1 := visit st (offset c rel (x st) x1) (offset c rel (y st) y1) in
      Some (line_to st1 (offset c rel (x st) nx) (offset c rel (y st) ny))
  | _ => None
  end.

Definition arc (c : ascii) (st : state) (nums : list Q) : option state :=
  match nums with
  | [_; _; _; _; _; nx; ny] =>
      Some (line_to st (offset c "a" (x st) nx) (offset c "a" (y st) ny))
  | _ => None
  end.

(** The body of the loop at the token [t], with [rest] the tokens after it. *)
Definition loop_body (st : state) (t : token) (rest : list token) : outcome :=
  match t with
  | Letter c =>
      if in_str c "Zz" then
        Continue (mkState (start_x st) (start_y st) (start_x st) (start_y st)
                          (add_point (start_x st) (start_y st) (acc st))
                          (Some c)) rest
      else
        Continue (mkState (x st) (y st) (start_x st) (start_y st) (acc st)
                          (Some c)) rest
  | Number _ =>
      match cmd st with
      | None => Break st
      | Some c =>
          if in_str c "Mm" then numbers_then st (t :: rest) 2 (move c st)
          else if in_str c "Ll" then numbers_then st (t :: rest) 2 (line "l" c st)
          else if in_str c "Hh" then numbers_then st (t :: rest) 1 (horizontal c st)
          else if in_str c "Vv" then numbers_then st (t :: rest) 1 (vertical c st)
          else if in_str c "Cc" then numbers_then st (t :: rest) 6 (cubic c st)
          else if in_str c "Ss" then
            numbers_then st (t :: rest) 4 (one_control "s" c st)
          else if in_str c "Qq" then
            numbers_then st (t :: rest) 4 (one_control "q" c st)
          else if in_str c "Tt" then numbers_then st (t :: rest) 2 (line "t" c st)
          else if in_str c "Aa" then numbers_then st (t :: rest) 7 (arc c st)
          else Continue st rest
      end
  end.

Close Scope string_scope.

Lemma take_numbers_length toks n nums toks' :
  take_numbers toks n = Some (nums, toks') ->
  length toks = (length nums + length toks')%nat.
Proof.
  revert toks nums toks'; induction n as [|n IH]; intros toks nums toks'; simpl.
  - intros [= <- <-]. reflexivity.
  - destruct toks as [|[c|v] rest].
    + intros [= <- <-]. reflexivity.
    + discriminate.
    + destruct (take_numbers rest n) as [[out r]|] eqn:E; [|discriminate].
      intros [= <- <-]. simpl. f_equal. apply IH. assumption.
Qed.

(** A branch that goes on has read at least one number. *)
Lemma numbers_then_advances st v rest n update st' toks' :
  (forall nums, update nums <> None -> nums <> []) ->
  numbers_then st (Number v :: rest) n update = Continue st' toks' ->
  (length toks' <= length rest)%nat.
Proof.
  intros U. unfold numbers_then.
  destruct (take_numbers (Number v :: rest) n) as [[nums toks]|] eqn:E;
    [|discriminate].
  destruct (update nums) as [st1|] eqn:G; [|discriminate].
  intros [= <- <-]. apply take_numbers_length in E.
  assert (nums <> []) by (apply U; congruence).
  destruct nums; [congruence|]. simpl in E. lia.
Qed.

(** Every iteration that goes on has moved past at least one token. *)
Lemma loop_body_advances st t rest st' toks' :
  loop_body st t rest = Continue st' toks' ->
  (length toks' <= length rest)%nat.
Proof.
  unfold loop_body. destruct t as [c|v].
  - destruct (in_str c "Zz"); intros [= <- <-]; lia.
  - destruct (cmd st) as [c|]; [|discriminate].
    repeat match goal with
    | |- context [if in_str c ?s then _ else _] => destruct (in_str c s)
    end;
    try (intros [= <- <-]; lia);
    apply numbers_then_advances; intros [|? nums]; simpl; congruence.
Qed.

(** The [while] loop and what follows it: [None] when [minx] is still [inf],
    the box otherwise. *)
Equations? run (st : state) (toks : list token) : result
  by wf (length toks) lt :=
  run st [] := Returned (acc st);
  run st (t :: rest) with inspect (loop_body st t rest) := {
    | exist _ (Continue st' toks') E => run st' toks'
    | exist _ (Break st') E => Returned (acc st')
    | exist _ Raise E => ValueError }.
Proof. apply loop_body_advances in E. lia. Qed.

(** [bbox_from_path_d]; [if not tokens: return None] comes first. *)
Definition bbox_from_path_d (d : string) : result :=
  match tokenize d with
  | [] => Returned None
  | tokens => run initial tokens
  end.

(** ** Crops and canvas size *)

(** [round(x)] of Python 3 for the number [x]: the nearest integer, the even
    one of the two when [x] lies half way. *)
Definition py_round (q : Q) : Z :=
  let f := Qfloor q in
  match Qcompare (q - inject_Z f)%Q (1 # 2)%Q with
  | Lt => f
  | Gt => (f + 1)%Z
  | Eq => if Z.even f then f else (f + 1)%Z
  end.

(** ** The boxes on binary64 floats

    Python's [float] is IEEE 754 binary64 with round-to-nearest-even, which
    is what the primitive floats compute.  The crops and the canvas size are
    arithmetic on the coordinates, so they are taken on these floats. *)
Module Binary64.

Import Stdlib.Floats.Floats.

Record BBox : Type := mkBBox {
  minx : float;
  miny : float;
  maxx : float;
  maxy : float
}.

(** [min(a, b)]: [a] unless [b] is smaller; [max(a, b)]: [a] unless [b] is
    larger. *)
Definition min (a b : float) : float := if PrimFloat.ltb b a then b else a.
Definition max (a b : float) : float := if PrimFloat.ltb a b then b else a.

Definition union (self other : BBox) : BBox :=
  mkBBox (min (minx self) (minx other))
         (min (miny self) (miny other))
         (max (maxx self) (maxx other))
         (max (maxy self) (maxy other)).

Definition overlaps (self other : BBox) (pad : float) : bool :=
  negb (PrimFloat.ltb (maxx self + pad) (minx other)
        || PrimFloat.ltb (maxx other + pad) (minx self)
        || PrimFloat.ltb (maxy self + pad) (miny other)
        || PrimFloat.ltb (maxy other + pad) (miny self)).

Definition cluster_bboxes (bboxes : list BBox) (proximity : float)
  : list BBox :=
  cluster (fun c b => overlaps c b proximity) union bboxes.

Definition cx (self : BBox) : float := ((minx self + maxx self) / 2)%float.
Definition cy (self : BBox) : float := ((miny self + maxy self) / 2)%float.
Definition w (self : BBox) : float := (maxx self - minx self)%float.
Definition h (self : BBox) : float := (maxy self - miny self)%float.

Definition crop_to_square (b : BBox) (pad : float) : BBox :=
  let minx' := (minx b - pad)%float in
  let miny' := (miny b - pad)%float in
  let maxx' := (maxx b + pad)%float in
  let maxy' := (maxy b + pad)%float in
  let w' := (maxx' - minx')%float in
  let h' := (maxy' - miny')%float in
  let side := max w' h' in
  let cx' := ((minx' + maxx') / 2)%float in
  let cy' := ((miny' + maxy') / 2)%float in
  mkBBox (cx' - side / 2)%float (cy' - side / 2)%float
         (cx' + side / 2)%float (cy' + side / 2)%float.

Definition crop_rect (b : BBox) (pad_l pad_r pad_t pad_b : float) : BBox :=
  mkBBox (minx b - pad_l)%float (miny b - pad_t)%float
         (maxx b + pad_r)%float (maxy b + pad_b)%float.

(** What a call ends with: the value it returns, or one of the two
    exceptions that converting between [int] and [float] raises. *)
Inductive py (A : Type) : Type :=
| Return (a : A)
| OverflowError
| ValueError.

Arguments Return {A} a.
Arguments OverflowError {A}.
Arguments ValueError {A}.

(** The number a finite float stands for: [m * 2^e], negated when [s]. *)
Definition value (s : bool) (m : positive) (e : Z) : Q :=
  inject_Z (cond_Zopp s (Zpos m)) * 2 ^ e.

Definition exact (x : float) : option Q :=
  match Prim2SF x with
  | S754_zero _ => Some 0
  | S754_finite s m e => Some (value s m e)
  | _ => None
  end.

(** [float(z)] for an [int] [z], as [int * float] takes it: the nearest
    float, the even one of two; [None] stands for the [OverflowError] of an
    [int] beyond the largest float. *)
Definition float_of_int (z : Z) : option float :=
  match binary_normalize prec emax z 0 false with
  | S754_infinity _ => None
  | f => Some (SF2Prim f)
  end.

(** [round(x)] for a float [x]: an [int], exactly; [OverflowError] for an
    infinity and [ValueError] for a NaN. *)
Definition round (x : float) : py Z :=
  match Prim2SF x with
  | S754_nan => ValueError
  | S754_infinity _ => OverflowError
  | S754_zero _ => Return 0%Z
  | S754_finite s m e => Return (py_round (value s m e))
  end.

Definition svg_canvas_for_viewbox (vb : BBox) (max_w : Z) : py (Z * Z) :=
  let w' := max (w vb) 1 in
  let h' := max (h vb) 1 in
  let width := max_w in
  match float_of_int max_w with
  | None => OverflowError
  | Some max_w' =>
      match round (max_w' * (h' / w'))%float with
      | Return height =>
          let height := Z.max 220 (Z.min 640 height) in
          Return (width, height)
      | OverflowError => OverflowError
      | ValueError => ValueError
      end
  end.

(** *** The loop over the targets in [main] *)

(** [code in ("AKE", "AKH")] *)
Definition keeps_body (code : string) : bool :=
  (String.eqb code "AKE" || String.eqb code "AKH")%string.

(** [vb]: a rectangle with headroom for AKE and AKH, a square for any other
    target. *)
Definition viewbox_for (code : string) (bb : BBox) : BBox :=
  if keeps_body code
  then crop_rect bb 18 18 120 44
  else crop_to_square bb 90.

(** [crop]: the viewport with the margin of 12 around it. *)
Definition keep_region (vb : BBox) : BBox :=
  mkBBox (minx vb - 12)%float (miny vb - 12)%float
         (maxx vb + 12)%float (maxy vb + 12)%float.

(** Whether a path with the box [pb] goes into the picture of a target: AKE
    and AKH take the whole body, any other target the paths with
    [pb.overlaps(crop, pad=0.0)]. *)
Definition keeps (code : string) (vb pb : BBox) : bool :=
  if keeps_body code then true else overlaps pb (keep_region vb) 0.

End Binary64.

(** ** Choosing the targets in [main] *)

(** [c.w() > 80 and c.h() > 60] *)
Definition plausible (c : BBox) : bool := Qltb 80 (w c) && Qltb 60 (h c).

(** [list.sort(key=...)] is stable: a box goes before the first box of the
    sorted rest whose key is not smaller than its own. *)
Fixpoint insert_by (key : BBox -> Q) (b : BBox) (sorted : list BBox)
  : list BBox :=
  match sorted with
  | [] => [b]
  | c :: rest =>
      if Qltb (key c) (key b) then c :: insert_by key b rest
      else b :: c :: rest
  end.

Definition sort_by (key : BBox -> Q) (l : list BBox) : list BBox :=
  fold_right (insert_by key) [] l.

(** What the selection ends with: the boxes chosen, or the [IndexError] of a
    [top[k]] that is not there. *)
Inductive selection : Type :=
| Selected (targets : list BBox)
| IndexError.

(** [[top[0], ..., top[n - 1]]], evaluated left to right from [top[k]]. *)
Fixpoint index_from (top : list BBox) (k n : nat) : selection :=
  match n with
  | O => Selected []
  | S n' =>
      match nth_error top k with
      | None => IndexError
      | Some b =>
          match index_from top (S k) n' with
          | Selected bs => Selected (b :: bs)
          | IndexError => IndexError
          end
      end
  end.

(** The selection of [main] for [n] targets: filter by size, sort by [cy],
    keep [clusters[:n]], sort by [cx], then index [top[0]] to [top[n - 1]]. *)
Definition select_top (n : nat) (clusters : list BBox) : selection :=
  let clusters := filter plausible clusters in
  let clusters := sort_by cy clusters in
  let top := firstn n clusters in
  let top := sort_by cx top in
  index_from top 0 n.

(** [main] asks for three: [top[0]], [top[1]] and [top[2]] become AKE, AKH and
    LD9. *)
Definition main_targets (clusters : list BBox) : selection :=
  select_top 3 clusters.

(** * Properties *)

(** ** Comparisons and the overlap test *)

Lemma Qltb_lt x y : Qltb x y = true <-> x < y.
Proof.
  unfold Qltb. rewrite negb_true_iff, <- not_true_iff_false, Qle_bool_iff.
  split; [apply Qnot_le_lt | apply Qlt_not_le].
Qed.

Lemma Qltb_ge x y : Qltb x y = false <-> y <= x.
Proof. unfold Qltb. rewrite negb_false_iff. apply Qle_bool_iff. Qed.

(** The four comparisons of [overlaps], one pair per axis. *)
Definition gap_exceeds (a b : BBox) (pad : Q) : Prop :=
  maxx a + pad < minx b \/ maxx b + pad < minx a \/
  maxy a + pad < miny b \/ maxy b + pad < miny a.

Lemma overlaps_false a b pad : overlaps a b pad = false <-> gap_exceeds a b pad.
Proof.
  unfold overlaps, gap_exceeds.
  rewrite negb_false_iff, !orb_true_iff, !Qltb_lt. tauto.
Qed.

Lemma overlaps_true a b pad :
  overlaps a b pad = true <->
  minx b <= maxx a + pad /\ minx a <= maxx b + pad /\
  miny b <= maxy a + pad /\ miny a <= maxy b + pad.
Proof.
  unfold overlaps.
  rewrite negb_true_iff, !orb_false_iff, !Qltb_ge. tauto.
Qed.

Lemma overlaps_sym a b pad : overlaps a b pad = overlaps b a pad.
Proof.
  unfold overlaps.
  destruct (Qltb (maxx a + pad) (minx b)), (Qltb (maxx b + pad) (minx a)),
    (Qltb (maxy a + pad) (miny b)), (Qltb (maxy b + pad) (miny a)); reflexivity.
Qed.

(** [inside a b]: the box [a] lies inside the box [b]. *)
Definition inside (a b : BBox) : Prop :=
  minx b <= minx a /\ miny b <= miny a /\ maxx a <= maxx b /\ maxy a <= maxy b.

Lemma inside_refl a : inside a a.
Proof. unfold inside. repeat split; apply Qle_refl. Qed.

Lemma inside_trans a b c : inside a b -> inside b c -> inside a c.
Proof. unfold inside. intros (?&?&?&?) (?&?&?&?). repeat split; lra. Qed.

Lemma union_l a b : inside a (union a b).
Proof.
  unfold inside, union; simpl.
  repeat split; auto using Q.le_min_l, Q.le_max_l.
Qed.

Lemma union_r a b : inside b (union a b).
Proof.
  unfold inside, union; simpl.
  repeat split; auto using Q.le_min_r, Q.le_max_r.
Qed.

Lemma union_lub a b c : inside a c -> inside b c -> inside (union a b) c.
Proof.
  unfold inside, union; simpl. intros (?&?&?&?) (?&?&?&?).
  repeat split;
    solve [apply Q.min_glb; assumption | apply Q.max_lub; assumption].
Qed.

Lemma overlaps_mono pad a b a' b' :
  overlaps a b pad = true -> inside a a' -> inside b b' ->
  overlaps a' b' pad = true.
Proof.
  rewrite !overlaps_true. unfold inside.
  intros (?&?&?&?) (?&?&?&?) (?&?&?&?). repeat split; lra.
Qed.

(** ** The clusters that come out *)

(** C7: no two distinct boxes of the output of [cluster_bboxes] are within
    the proximity of each other.  For boxes at two different positions of the
    output the padded overlap test is false, that is, on some axis the gap
    between them is larger than the proximity. *)
Theorem cluster_bboxes_pairwise_apart bboxes proximity i j a b :
  nth_error (cluster_bboxes bboxes proximity) i = Some a ->
  nth_error (cluster_bboxes bboxes proximity) j = Some b ->
  i <> j ->
  overlaps a b proximity = false /\ gap_exceeds a b proximity.
Proof.
  intros Hi Hj Hij.
  pose proof (cluster_apart (fun c b => overlaps c b proximity) union bboxes)
    as F.
  fold (cluster_bboxes bboxes proximity) in F.
  assert (overlaps a b proximity = false) as H.
  { destruct (Nat.lt_total i j) as [L|[L|L]]; [|contradiction|].
    - exact (ForallOrdPairs_nth _ _ _ _ _ _ F L Hi Hj).
    - rewrite overlaps_sym. exact (ForallOrdPairs_nth _ _ _ _ _ _ F L Hj Hi). }
  split; [exact H | apply overlaps_false; exact H].
Qed.

(** The three paths of the end-to-end scenario, clustered with proximity 10:
    the two boxes that come out are more than 10 apart. *)
Lemma cluster_bboxes_pairwise_apart_witness :
  overlaps (mkBBox 0 0 100 90) (mkBBox 500 0 600 60) 10 = false /\
  gap_exceeds (mkBBox 0 0 100 90) (mkBBox 500 0 600 60) 10.
Proof.
  apply (cluster_bboxes_pairwise_apart
           [mkBBox 0 0 100 50; mkBBox 0 40 90 90; mkBBox 500 0 600 60]
           10 0 1).
  - reflexivity.
  - reflexivity.
  - discriminate.
Defined.

(** C10: the repeat-until-stable loop of [cluster_bboxes] ends.  A pass that
    merges leaves fewer clusters than it was given, a pass that merges
    nothing ends the loop with its output, and so the loop is over after at
    most as many merging passes as the greedy phase left clusters, followed
    by the one pass that merges nothing. *)
Theorem cluster_bboxes_terminates bboxes proximity :
  let near := fun c b => overlaps c b proximity in
  (forall clusters out,
      merge_pass near union clusters = (out, true) ->
      (length out < length clusters)%nat) /\
  (forall clusters out,
      merge_pass near union clusters = (out, false) ->
      out = clusters /\ stabilize near union clusters = out) /\
  exists n,
    (n <= length (greedy near union bboxes))%nat /\
    (forall k, (k < n)%nat ->
       snd (merge_pass near union
              (passes near union k (greedy near union bboxes))) = true) /\
    merge_pass near union (passes near union n (greedy near union bboxes))
    = (cluster_bboxes bboxes proximity, false).
Proof.
  intros near. split; [|split].
  - intros clusters out. apply merge_pass_decreases.
  - intros clusters out E. split.
    + apply (merge_pass_unchanged _ _ _ _ E).
    + apply stabilize_stable. exact E.
  - apply stabilize_passes.
Qed.

(** Two boxes with a third that bridges them arriving last: the greedy phase
    leaves two clusters, the first pass merges them into one. *)
Lemma cluster_bboxes_terminates_witness :
  (length [mkBBox 0 0 11 1] < length [mkBBox 0 0 10 1; mkBBox 10 0 11 1])%nat.
Proof.
  apply (proj1 (cluster_bboxes_terminates
                  [mkBBox 0 0 1 1; mkBBox 10 0 11 1; mkBBox 1 0 10 1] 0)).
  reflexivity.
Defined.

(** The same two facts for the loops on binary64 floats: they depend on the
    overlap test only through its symmetry, and not on the arithmetic. *)
Lemma float_overlaps_sym a b pad :
  Binary64.overlaps a b pad = Binary64.overlaps b a pad.
Proof.
  unfold Binary64.overlaps.
  destruct (PrimFloat.ltb _ _), (PrimFloat.ltb _ _), (PrimFloat.ltb _ _),
    (PrimFloat.ltb _ _); reflexivity.
Qed.

Lemma float_clusters_pairwise_apart bboxes proximity i j a b :
  nth_error (Binary64.cluster_bboxes bboxes proximity) i = Some a ->
  nth_error (Binary64.cluster_bboxes bboxes proximity) j = Some b ->
  i <> j ->
  Binary64.overlaps a b proximity = false.
Proof.
  intros Hi Hj Hij.
  pose proof (cluster_apart (fun c b => Binary64.overlaps c b proximity)
                Binary64.union bboxes) as F.
  fold (Binary64.cluster_bboxes bboxes proximity) in F.
  destruct (Nat.lt_total i j) as [L|[L|L]]; [|contradiction|].
  - exact (ForallOrdPairs_nth _ _ _ _ _ _ F L Hi Hj).
  - rewrite float_overlaps_sym.
    exact (ForallOrdPairs_nth _ _ _ _ _ _ F L Hj Hi).
Qed.

Lemma float_clusters_terminate bboxes proximity :
  let near := fun c b => Binary64.overlaps c b proximity in
  exists n,
    (n <= length (greedy near Binary64.union bboxes))%nat /\
    merge_pass near Binary64.union
      (passes near Binary64.union n (greedy near Binary64.union bboxes))
    = (Binary64.cluster_bboxes bboxes proximity, false).
Proof.
  intros near.
  destruct (stabilize_passes near Binary64.union
              (greedy near Binary64.union bboxes)) as (n & Hn & _ & E).
  exists n. split; assumption.
Qed.

(** *** Proximity zero *)

(** One box ends strictly before the other begins, on some axis. *)
Definition separated (a b : BBox) : Prop :=
  maxx a < minx b \/ maxx b < minx a \/ maxy a < miny b \/ maxy b < miny a.

(** [minx <= maxx] and [miny <= maxy], as for every box made from points. *)
Definition well_formed (b : BBox) : Prop :=
  minx b <= maxx b /\ miny b <= maxy b.

(** Two boxes that meet in an edge and no more: the right edge of [a] is the
    left edge of [b] and their heights meet, or the same from top to
    bottom. *)
Definition share_only_an_edge (a b : BBox) : Prop :=
  well_formed a /\ well_formed b /\
  ((maxx a == minx b /\ miny a <= maxy b /\ miny b <= maxy a) \/
   (maxy a == miny b /\ minx a <= maxx b /\ minx b <= maxx a)).

Lemma cluster_pair {A : Type} (near : A -> A -> bool) join (a b : A) :
  cluster near join [a; b] = if near a b then [join a b] else [a; b].
Proof.
  unfold cluster, greedy, greedy_step; simpl.
  destruct (near a b) eqn:E; simpl.
  - apply stabilize_stable. reflexivity.
  - apply stabilize_stable. unfold merge_pass, pass_step; simpl.
    rewrite E. reflexivity.
Qed.

(** C3, as the spec has it, fails: with proximity 0 the boxes [0,1]x[0,1] and
    [1,2]x[0,1], which share only the edge [x = 1], are merged into one. *)
Lemma touching_boxes_are_merged :
  share_only_an_edge (mkBBox 0 0 1 1) (mkBBox 1 0 2 1) /\
  cluster_bboxes [mkBBox 0 0 1 1; mkBBox 1 0 2 1] 0 = [mkBBox 0 0 2 1].
Proof.
  split.
  - unfold share_only_an_edge, well_formed; simpl.
    repeat split; try discriminate. left. repeat split; discriminate.
  - reflexivity.
Qed.

(** C3, amended: with proximity 0 two boxes are left unmerged exactly when
    one of them ends strictly before the other begins on some axis; boxes
    that overlap and boxes that share only an edge are both merged into
    their union, because it is the separation test that is strict. *)
Theorem cluster_bboxes_zero_proximity a b :
  (separated a b -> cluster_bboxes [a; b] 0 = [a; b]) /\
  (~ separated a b -> cluster_bboxes [a; b] 0 = [union a b]) /\
  (share_only_an_edge a b -> cluster_bboxes [a; b] 0 = [union a b]).
Proof.
  assert (S : separated a b <-> overlaps a b 0 = false).
  { rewrite overlaps_false. unfold separated, gap_exceeds.
    rewrite !Qplus_0_r. tauto. }
  unfold cluster_bboxes. rewrite cluster_pair.
  assert (N : ~ separated a b -> overlaps a b 0 = true).
  { intros H. destruct (overlaps a b 0); auto. exfalso. apply H, S; auto. }
  split; [|split].
  - intros H. apply S in H. rewrite H. reflexivity.
  - intros H. rewrite (N H). reflexivity.
  - unfold share_only_an_edge, well_formed.
    intros ((?&?) & (?&?) & [(?&?&?)|(?&?&?)]); rewrite N; auto;
      unfold separated; lra.
Qed.

Lemma cluster_bboxes_zero_proximity_witness :
  cluster_bboxes [mkBBox 0 0 1 1; mkBBox 1 0 2 1] 0
  = [union (mkBBox 0 0 1 1) (mkBBox 1 0 2 1)] /\
  cluster_bboxes [mkBBox 0 0 1 1; mkBBox 3 0 4 1] 0
  = [mkBBox 0 0 1 1; mkBBox 3 0 4 1].
Proof.
  split.
  - apply (proj2 (proj2 (cluster_bboxes_zero_proximity
                           (mkBBox 0 0 1 1) (mkBBox 1 0 2 1)))).
    unfold share_only_an_edge, well_formed; simpl.
    repeat split; try discriminate. left. repeat split; discriminate.
  - apply (proj1 (cluster_bboxes_zero_proximity
                    (mkBBox 0 0 1 1) (mkBBox 3 0 4 1))).
    left. reflexivity.
Defined.

(** *** Members of a cluster *)

(** Forgetting the positions gives back [cluster_bboxes]. *)
Lemma cluster_tagged_boxes proximity (tl : list tagged) :
  map fst (cluster (near_tagged proximity) union_tagged tl)
  = cluster_bboxes (map fst tl) proximity.
Proof.
  unfold cluster_bboxes. symmetry.
  apply (cluster_map (near_tagged proximity) union_tagged); reflexivity.
Qed.

Lemma numbered_boxes bboxes : map fst (numbered bboxes) = bboxes.
Proof.
  unfold numbered. generalize 0%nat.
  induction bboxes as [|b rest IH]; intros k; simpl; [|rewrite IH]; reflexivity.
Qed.

Lemma numbered_positions bboxes :
  flat_map snd (numbered bboxes) = seq 0 (length bboxes).
Proof.
  unfold numbered. generalize 0%nat.
  induction bboxes as [|b rest IH]; intros k; simpl; [|rewrite IH]; reflexivity.
Qed.

Lemma numbered_from_nth bboxes k i b :
  nth_error bboxes i = Some b -> In (b, [(k + i)%nat]) (numbered_from k bboxes).
Proof.
  revert k i; induction bboxes as [|c rest IH]; intros k i H.
  - destruct i; discriminate.
  - destruct i as [|i]; simpl in *.
    + injection H as <-. rewrite Nat.add_0_r. left; reflexivity.
    + right. rewrite <- Nat.add_succ_comm. apply IH. assumption.
Qed.

Lemma numbered_nth bboxes i b :
  nth_error bboxes i = Some b -> In (b, [i]) (numbered bboxes).
Proof. apply (numbered_from_nth bboxes 0). Qed.

Lemma numbered_from_In bboxes k t :
  In t (numbered_from k bboxes) ->
  exists i, snd t = [(k + i)%nat] /\ nth_error bboxes i = Some (fst t).
Proof.
  revert k; induction bboxes as [|c rest IH]; intros k; simpl; [contradiction|].
  intros [<-|H].
  - exists 0%nat. rewrite Nat.add_0_r. auto.
  - destruct (IH _ H) as (i & E & N). exists (S i).
    rewrite <- Nat.add_succ_comm. auto.
Qed.

Lemma numbered_In bboxes t :
  In t (numbered bboxes) ->
  exists i, snd t = [i] /\ nth_error bboxes i = Some (fst t).
Proof. apply (numbered_from_In bboxes 0). Qed.

Lemma cluster_members_boxes bboxes proximity :
  map fst (cluster_members bboxes proximity) = cluster_bboxes bboxes proximity.
Proof.
  unfold cluster_members. rewrite cluster_tagged_boxes, numbered_boxes.
  reflexivity.
Qed.

(** The order on tagged boxes: inside, with all the positions. *)
Definition within (a b : tagged) : Prop :=
  inside (fst a) (fst b) /\ incl (snd a) (snd b).

Lemma within_refl a : within a a.
Proof. split; [apply inside_refl | apply incl_refl]. Qed.

Lemma within_trans a b c : within a b -> within b c -> within a c.
Proof.
  intros (?&?) (?&?). split; [eapply inside_trans | eapply incl_tran]; eauto.
Qed.

Lemma union_tagged_l a b : within a (union_tagged a b).
Proof. split; [apply union_l | apply incl_appl, incl_refl]. Qed.

Lemma union_tagged_r a b : within b (union_tagged a b).
Proof. split; [apply union_r | apply incl_appr, incl_refl]. Qed.

Lemma union_tagged_lub a b c :
  within a c -> within b c -> within (union_tagged a b) c.
Proof. intros (?&?) (?&?). split; [apply union_lub | apply incl_app]; auto. Qed.

Lemma near_tagged_sym proximity a b :
  near_tagged proximity a b = near_tagged proximity b a.
Proof. apply overlaps_sym. Qed.

Lemma near_tagged_mono proximity a b a' b' :
  near_tagged proximity a b = true -> within a a' -> within b b' ->
  near_tagged proximity a' b' = true.
Proof. intros N (?&_) (?&_). eapply overlaps_mono; eauto. Qed.

Lemma NoDup_app_disjoint {T : Type} (l1 l2 : list T) a :
  NoDup (l1 ++ l2) -> In a l1 -> In a l2 -> False.
Proof.
  induction l1 as [|c l1 IH]; simpl; intros N H1 H2; [contradiction|].
  inversion N; subst. destruct H1 as [->|H1]; auto.
  apply H3. apply in_or_app; auto.
Qed.

Lemma NoDup_flat_map_same {T : Type} (f : T -> list nat) l s t i :
  NoDup (flat_map f l) -> In s l -> In t l -> In i (f s) -> In i (f t) -> s = t.
Proof.
  induction l as [|c l IH]; simpl; intros N Hs Ht Is It; [contradiction|].
  apply NoDup_app_remove_l in N as N'.
  assert (X : forall u, In u l -> In i (f u) -> In i (f c) -> False).
  { intros u Hu Iu Ic. apply (NoDup_app_disjoint _ _ i N Ic).
    apply in_flat_map. exists u; auto. }
  destruct Hs as [<-|Hs], Ht as [<-|Ht]; auto.
  - exfalso; eauto.
  - exfalso; eauto.
Qed.

Section TaggedRuns.

Variable proximity : Q.

Let clustered (tl : list tagged) : list tagged :=
  cluster (near_tagged proximity) union_tagged tl.

Lemma clustered_nonempty tl t :
  Forall (fun t => snd t <> []) tl -> In t (clustered tl) -> snd t <> [].
Proof.
  intros F. revert t. apply Forall_forall. apply cluster_closed; auto.
  intros c b _ Hc _. unfold union_tagged; simpl.
  destruct (snd c); [congruence | discriminate].
Qed.

Lemma clustered_NoDup tl : NoDup (flat_map snd tl) -> NoDup (flat_map snd (clustered tl)).
Proof.
  intros N. eapply Permutation_NoDup; [|exact N]. symmetry.
  apply cluster_members_perm; reflexivity.
Qed.

Lemma clustered_covers tl b :
  In b tl -> covered within (clustered tl) b.
Proof.
  apply (cluster_covers _ _ within within_refl within_trans
           union_tagged_l union_tagged_r).
Qed.

Lemma clustered_apart tl : ForallOrdPairs (apart (near_tagged proximity)) (clustered tl).
Proof. apply cluster_apart. Qed.

(** Whatever the order in which the same tagged boxes come in, every cluster
    of one run has a cluster of the other run around it. *)
Lemma clustered_below tl tl' t :
  Permutation tl tl' -> In t (clustered tl) -> covered within (clustered tl') t.
Proof.
  intros Hp Ht.
  apply (cluster_least (near_tagged proximity) union_tagged within
           union_tagged_lub (near_tagged_sym proximity)
           (near_tagged_mono proximity) (clustered tl') tl (clustered_apart tl'));
    [|exact Ht].
  intros b Hb. apply clustered_covers. eapply Permutation_in; eauto.
Qed.

Lemma clustered_agree tl tl' t :
  Permutation tl tl' -> NoDup (flat_map snd tl) ->
  Forall (fun t => snd t <> []) tl ->
  In t (clustered tl) ->
  exists t', In t' (clustered tl') /\ within t t' /\ within t' t.
Proof.
  intros Hp N F Ht.
  destruct (clustered_below tl tl' t Hp Ht) as (t' & Ht' & L1).
  destruct (clustered_below tl' tl t' (Permutation_sym Hp) Ht') as (t'' & Ht'' & L2).
  exists t'. split; [exact Ht'|]. split; [exact L1|].
  assert (t = t'') as <-; [|exact L2].
  pose proof (clustered_nonempty tl t F Ht) as NE.
  destruct (snd t) as [|i rest] eqn:E; [congruence|].
  apply (NoDup_flat_map_same snd (clustered tl) t t'' i); auto using clustered_NoDup.
  - rewrite E. left; reflexivity.
  - apply L2, L1. rewrite E. left; reflexivity.
Qed.

End TaggedRuns.

(** *** Order of the input *)

(** Two boxes with the same four coordinates. *)
Definition bbox_eq (a b : BBox) : Prop :=
  minx a == minx b /\ miny a == miny b /\ maxx a == maxx b /\ maxy a == maxy b.

(** Two lists of boxes that hold the same boxes, as sets of coordinate
    quadruples. *)
Definition same_boxes (out out' : list BBox) : Prop :=
  (forall a, In a out -> exists b, In b out' /\ bbox_eq a b) /\
  (forall b, In b out' -> exists a, In a out /\ bbox_eq a b).

Lemma inside_antisym a b : inside a b -> inside b a -> bbox_eq a b.
Proof.
  unfold inside, bbox_eq. intros (?&?&?&?) (?&?&?&?).
  repeat split; apply Qle_antisym; assumption.
Qed.

Lemma clustered_boxes_agree proximity (tl tl' : list tagged) a :
  Permutation tl tl' -> NoDup (flat_map snd tl) ->
  Forall (fun t => snd t <> []) tl ->
  In a (cluster_bboxes (map fst tl) proximity) ->
  exists b, In b (cluster_bboxes (map fst tl') proximity) /\ bbox_eq a b.
Proof.
  intros Hp N F. rewrite <- !cluster_tagged_boxes.
  intros Ha. apply in_map_iff in Ha. destruct Ha as (t & <- & Ht).
  destruct (clustered_agree proximity tl tl' t Hp N F Ht)
    as (t' & Ht' & (L1 & _) & (L2 & _)).
  exists (fst t'). split; [apply in_map; exact Ht' | apply inside_antisym; auto].
Qed.

(** C4: clustering does not depend on the order of the input.  For every
    list of boxes, every proximity (non-negative or not) and every
    permutation of the list, [cluster_bboxes] returns the same set of boxes,
    compared by their four coordinates. *)
Theorem cluster_bboxes_order_independent bboxes bboxes' proximity :
  Permutation bboxes bboxes' ->
  same_boxes (cluster_bboxes bboxes proximity)
             (cluster_bboxes bboxes' proximity).
Proof.
  intros Hp.
  assert (Hp' : Permutation bboxes' (map fst (numbered bboxes))).
  { rewrite numbered_boxes. symmetry. exact Hp. }
  apply Permutation_map_inv in Hp'. destruct Hp' as (tl' & -> & Hp').
  rewrite <- (numbered_boxes bboxes) at 1.
  assert (N : NoDup (flat_map snd (numbered bboxes))).
  { rewrite numbered_positions. apply seq_NoDup. }
  assert (F : Forall (fun t : tagged => snd t <> []) (numbered bboxes)).
  { apply Forall_forall. intros t Ht. apply numbered_In in Ht.
    destruct Ht as (i & -> & _). discriminate. }
  split.
  - intros a Ha. eapply clustered_boxes_agree; eauto.
  - intros b Hb.
    destruct (clustered_boxes_agree proximity tl' (numbered bboxes) b)
      as (a & Ha & E); auto.
    + symmetry; exact Hp'.
    + eapply Permutation_NoDup; [|exact N]. apply Permutation_flat_map.
      exact Hp'.
    + eapply Permutation_Forall; eauto.
    + exists a. split; auto. unfold bbox_eq in *.
      destruct E as (?&?&?&?). repeat split; symmetry; assumption.
Qed.

(** The boxes of the three paths of the end-to-end scenario, and the same
    boxes with the first two swapped. *)
Lemma cluster_bboxes_order_independent_witness :
  same_boxes
    (cluster_bboxes
       [mkBBox 0 0 100 50; mkBBox 0 40 90 90; mkBBox 500 0 600 60] 10)
    (cluster_bboxes
       [mkBBox 0 40 90 90; mkBBox 0 0 100 50; mkBBox 500 0 600 60] 10).
Proof.
  apply cluster_bboxes_order_independent. apply perm_swap.
Defined.

(** *** Chains of nearby input boxes *)

(** The input boxes at positions [i] and [j] are within the proximity of
    each other: on neither axis is the gap between them larger. *)
Definition near_at (bboxes : list BBox) (proximity : Q) (i j : nat) : Prop :=
  exists a b,
    nth_error bboxes i = Some a /\ nth_error bboxes j = Some b /\
    overlaps a b proximity = true.

(** A chain of input boxes from position [i] to position [j], each within
    the proximity of the next. *)
Inductive chain (bboxes : list BBox) (proximity : Q) : nat -> nat -> Prop :=
| chain_here i : (i < length bboxes)%nat -> chain bboxes proximity i i
| chain_next i j k :
    near_at bboxes proximity i j -> chain bboxes proximity j k ->
    chain bboxes proximity i k.

(** The input boxes at positions [i] and [j] went into the same output
    box. *)
Definition absorbed_together (bboxes : list BBox) (proximity : Q) (i j : nat)
  : Prop :=
  exists t, In t (cluster_members bboxes proximity) /\
            In i (snd t) /\ In j (snd t).

(** The members of an output box lie inside it, and it is the smallest box
    around them. *)
Definition union_of_members (bboxes : list BBox) (t : tagged) : Prop :=
  (forall i b, In i (snd t) -> nth_error bboxes i = Some b -> inside b (fst t)) /\
  (forall c,
      (forall i b, In i (snd t) -> nth_error bboxes i = Some b -> inside b c) ->
      inside (fst t) c).

Lemma cluster_members_union bboxes proximity t :
  In t (cluster_members bboxes proximity) -> union_of_members bboxes t.
Proof.
  revert t. apply Forall_forall. apply cluster_closed.
  - intros c b _ (C1 & C2) (B1 & B2). unfold union_tagged; simpl. split.
    + intros i x Hi Hx. apply in_app_or in Hi. destruct Hi as [Hi|Hi].
      * eapply inside_trans; [eapply C1; eauto | apply union_l].
      * eapply inside_trans; [eapply B1; eauto | apply union_r].
    + intros d Hd. apply union_lub.
      * apply C2. intros i x Hi. apply Hd. apply in_or_app; auto.
      * apply B2. intros i x Hi. apply Hd. apply in_or_app; auto.
  - apply Forall_forall. intros t Ht. apply numbered_In in Ht.
    destruct Ht as (i & E & N). split.
    + intros k b Hk Hb. rewrite E in Hk. destruct Hk as [<-|[]].
      rewrite N in Hb. injection Hb as <-. apply inside_refl.
    + intros c Hc. apply (Hc i); [rewrite E; left; reflexivity | exact N].
Qed.

Lemma cluster_members_partition bboxes proximity :
  Permutation (flat_map snd (cluster_members bboxes proximity))
              (seq 0 (length bboxes)).
Proof.
  unfold cluster_members. rewrite <- numbered_positions.
  apply cluster_members_perm. reflexivity.
Qed.

Lemma chain_absorbed bboxes proximity i j t :
  chain bboxes proximity i j ->
  In t (cluster_members bboxes proximity) -> In i (snd t) -> In j (snd t).
Proof.
  intros C Ht. induction C as [i L|i j k (a & b & Ha & Hb & N) C IH]; auto.
  intros Hi. apply IH.
  assert (W : within (b, [j]) t).
  { apply (covered_near_same (near_tagged proximity) within
             (near_tagged_sym proximity) (near_tagged_mono proximity)
             (cluster_members bboxes proximity) (a, [i]) (b, [j]) t).
    - apply cluster_apart.
    - exact Ht.
    - split; simpl.
      + destruct (cluster_members_union bboxes proximity t Ht) as (U & _).
        eapply U; eauto.
      + intros x [<-|[]]. exact Hi.
    - apply clustered_covers. apply numbered_nth. exact Hb.
    - exact N. }
  apply W. left; reflexivity.
Qed.

(** C1, as the spec has it, fails in the direction from the output to the
    chain.  With a tall box and a wide box that overlap in a corner, their
    union also swallows a small box that is near neither of them: positions
    0 and 2 go into the same output box and no chain links them. *)
Lemma swallowed_box_has_no_chain :
  let bboxes := [mkBBox 0 0 1 10; mkBBox 0 0 10 1; mkBBox 5 5 6 6] in
  cluster_bboxes bboxes 0 = [mkBBox 0 0 10 10] /\
  absorbed_together bboxes 0 0 2 /\
  ~ chain bboxes 0 0 2.
Proof.
  intros bboxes. split; [reflexivity|]. split.
  - exists (mkBBox 0 0 10 10, [0; 1; 2]%nat). split; [left; reflexivity|].
    simpl; auto.
  - assert (H : forall i k, chain bboxes 0 i k ->
                            (i < 2)%nat -> (k < 2)%nat).
    { intros i k C. induction C as [i L|i j k (a & b & Ha & Hb & N) C IH]; auto.
      intros Hi. apply IH.
      destruct i as [|[|i]]; [| |lia];
        (destruct j as [|[|[|j]]]; [lia|lia| |destruct j; discriminate]);
        simpl in Ha, Hb; injection Ha as <-; injection Hb as <-;
        discriminate. }
    intros C. apply H in C; lia.
Qed.

(** C1, amended: the output of [cluster_bboxes] is a partition of the input
    into unions.  Every input box is a member of exactly one output box,
    every output box is the union of its members, and two input boxes linked
    by a chain of input boxes, each within the proximity of the next (gap on
    neither axis larger than it), are members of the same output box.  The
    converse is not claimed: a union also absorbs the boxes that are near
    it, though near none of its members. *)
Theorem cluster_bboxes_partition_union bboxes proximity :
  map fst (cluster_members bboxes proximity) = cluster_bboxes bboxes proximity /\
  Permutation (flat_map snd (cluster_members bboxes proximity))
              (seq 0 (length bboxes)) /\
  (forall t, In t (cluster_members bboxes proximity) ->
             union_of_members bboxes t) /\
  (forall i j, chain bboxes proximity i j ->
               absorbed_together bboxes proximity i j).
Proof.
  split; [apply cluster_members_boxes|].
  split; [apply cluster_members_partition|].
  split; [apply cluster_members_union|].
  intros i j C.
  assert (L : (i < length bboxes)%nat).
  { destruct C as [i L|i j k (a & b & Ha & _) _]; auto.
    apply nth_error_Some. congruence. }
  assert (In i (flat_map snd (cluster_members bboxes proximity))) as Hi.
  { eapply Permutation_in; [symmetry; apply cluster_members_partition|].
    apply in_seq. lia. }
  apply in_flat_map in Hi. destruct Hi as (t & Ht & Hi).
  exists t. split; auto. split; auto.
  eapply chain_absorbed; eauto.
Qed.

(** The end-to-end scenario: the first two boxes overlap, so positions 0 and
    1 are members of one output box. *)
Lemma cluster_bboxes_partition_union_witness :
  absorbed_together
    [mkBBox 0 0 100 50; mkBBox 0 40 90 90; mkBBox 500 0 600 60] 10 0 1.
Proof.
  apply (proj2 (proj2 (proj2 (cluster_bboxes_partition_union
    [mkBBox 0 0 100 50; mkBBox 0 40 90 90; mkBBox 500 0 600 60] 10)))).
  apply (chain_next _ _ 0 1 1)%nat.
  - exists (mkBBox 0 0 100 50), (mkBBox 0 40 90 90).
    repeat split; reflexivity.
  - apply chain_here. simpl. lia.
Defined.

(** ** Crops and canvas *)

(** [max(220, min(640, height))] *)
Definition clamp_height (height : Z) : Z := Z.max 220 (Z.min 640 height).

Lemma py_round_comp q q' : q == q' -> py_round q = py_round q'.
Proof.
  intros E. unfold py_round. rewrite (Qfloor_comp _ _ E).
  assert (E' : q - inject_Z (Qfloor q') == q' - inject_Z (Qfloor q'))
    by (rewrite E; reflexivity).
  rewrite (Qcompare_comp _ _ E' _ _ (Qeq_refl _)). reflexivity.
Qed.

Lemma py_round_Z z : py_round (inject_Z z) = z.
Proof.
  unfold py_round. rewrite Qfloor_Z.
  assert (E : inject_Z z - inject_Z z == 0) by ring.
  rewrite (Qcompare_comp _ _ E _ _ (Qeq_refl _)). reflexivity.
Qed.

Lemma py_round_near q :
  inject_Z (py_round q) - q <= 1 # 2 /\ q - inject_Z (py_round q) <= 1 # 2.
Proof.
  unfold py_round. pose proof (Qfloor_le q) as L. pose proof (Qlt_floor q) as U.
  rewrite inject_Z_plus in U. change (inject_Z 1) with 1 in U.
  destruct (Qcompare (q - inject_Z (Qfloor q)) (1 # 2)) eqn:C.
  - apply Qeq_alt in C. destruct (Z.even (Qfloor q));
      rewrite ?inject_Z_plus; change (inject_Z 1) with 1; split; lra.
  - apply Qlt_alt in C. split; lra.
  - apply Qgt_alt in C. rewrite inject_Z_plus. change (inject_Z 1) with 1.
    split; lra.
Qed.

Lemma py_round_ge q z : inject_Z z <= q -> (z <= py_round q)%Z.
Proof.
  intros H. apply Qfloor_resp_le in H. rewrite Qfloor_Z in H.
  unfold py_round.
  destruct (Qcompare (q - inject_Z (Qfloor q)) (1 # 2));
    try destruct (Z.even (Qfloor q)); lia.
Qed.

Lemma py_round_le q z : q <= inject_Z z -> (py_round q <= z)%Z.
Proof.
  intros H. pose proof (Qfloor_le q) as L.
  assert (F : (Qfloor q <= z)%Z) by (rewrite Zle_Qle; lra).
  unfold py_round.
  destruct (Z.eq_dec (Qfloor q) z) as [E|N].
  - assert (C : Qcompare (q - inject_Z (Qfloor q)) (1 # 2) = Lt).
    { rewrite E. apply (proj1 (Qlt_alt _ _)). lra. }
    rewrite C. lia.
  - destruct (Qcompare (q - inject_Z (Qfloor q)) (1 # 2));
      try destruct (Z.even (Qfloor q)); lia.
Qed.

Section OnFloats.

Import Stdlib.Floats.Floats.
#[local] Set Warnings "-inexact-float".
#[local] Open Scope Z_scope.

(** The two clusterings above that merge more than the spec says, run on
    binary64 floats: the numbers are small integers, and the outcome is the
    same. *)
Lemma float_clusters_of_the_examples :
  Binary64.cluster_bboxes
    [Binary64.mkBBox 0 0 1 1; Binary64.mkBBox 1 0 2 1] 0
  = [Binary64.mkBBox 0 0 2 1] /\
  Binary64.cluster_bboxes
    [Binary64.mkBBox 0 0 1 10; Binary64.mkBBox 0 0 10 1;
     Binary64.mkBBox 5 5 6 6] 0
  = [Binary64.mkBBox 0 0 10 10].
Proof. split; vm_compute; reflexivity. Qed.

(** *** Float operations that do not round

    The arithmetic of the crops is exact on floats that are multiples
    [z * 2^e] of one power of two with [z] well below [2^53]: sums,
    differences, halves and comparisons of such floats are those of the
    integers [z].  The lemmas are read off the specification of binary64 in
    the standard library. *)

Lemma Zdigits2_log2 M : 0 < M -> Zdigits2 M = Z.log2 M + 1.
Proof.
  destruct M as [|p|p]; try lia. intros _. simpl.
  induction p as [p IH|p IH|]; simpl; try reflexivity.
  - rewrite Pos2Z.inj_succ, IH. destruct p; simpl; lia.
  - rewrite Pos2Z.inj_succ, IH. destruct p; simpl; lia.
Qed.

Lemma digits2_pos_log2 m : Zpos (digits2_pos m) = Z.log2 (Zpos m) + 1.
Proof. apply (Zdigits2_log2 (Zpos m)). lia. Qed.

Lemma iter_pos_nat {A} (f : A -> A) p a :
  iter_pos f p a = Nat.iter (Pos.to_nat p) f a.
Proof.
  revert a. induction p as [p IH|p IH|]; intros a; cbn [iter_pos].
  - rewrite !IH, Pos2Nat.inj_xI, <- Nat.iter_add, <- Nat.iter_succ_r.
    f_equal. lia.
  - rewrite !IH, Pos2Nat.inj_xO, <- Nat.iter_add. f_equal. lia.
  - reflexivity.
Qed.

(** A mantissa with nothing shifted out of it yet. *)
Definition exact_record (m : Z) : shr_record :=
  {| shr_m := m; shr_r := false; shr_s := false |}.

Lemma shr_1_even m : 0 < m -> shr_1 (exact_record (2 * m)) = exact_record m.
Proof. destruct m; try lia. reflexivity. Qed.

Lemma shr_nat_exact n m :
  0 < m ->
  Nat.iter n shr_1 (exact_record (m * 2 ^ Z.of_nat n)) = exact_record m.
Proof.
  intros Hm. induction n as [|n IH].
  - simpl. f_equal. lia.
  - rewrite Nat.iter_succ_r.
    replace (m * 2 ^ Z.of_nat (S n)) with (2 * (m * 2 ^ Z.of_nat n))
      by (rewrite Nat2Z.inj_succ, Z.pow_succ_r by lia; ring).
    rewrite shr_1_even
      by (apply Z.mul_pos_pos; [lia|apply Z.pow_pos_nonneg; lia]).
    exact IH.
Qed.

Lemma shr_exact m e j :
  0 < m -> 0 <= j ->
  shr (exact_record (m * 2 ^ j)) e j = (exact_record m, e + j).
Proof.
  intros Hm Hj. destruct j as [|p|p]; try lia.
  - simpl. rewrite Z.mul_1_r, Z.add_0_r. reflexivity.
  - unfold shr. rewrite iter_pos_nat.
    rewrite <- (positive_nat_Z p) at 1. rewrite shr_nat_exact by lia.
    reflexivity.
Qed.

Lemma fexp_normal d : -1074 <= d - 53 -> fexp prec emax d = d - 53.
Proof. unfold fexp, SpecFloat.emin, prec, emax. lia. Qed.

(** A mantissa of 53 bits followed by [j] zero bits is rounded to itself. *)
Lemma shr_fexp_exact m1 j e1 :
  Z.log2 m1 = 52 -> 0 <= j -> -1074 <= e1 ->
  shr_fexp prec emax (m1 * 2 ^ j) (e1 - j) loc_Exact = (exact_record m1, e1).
Proof.
  intros L Hj He.
  assert (Hm : 0 < m1) by (destruct m1; simpl in L; lia).
  unfold shr_fexp.
  rewrite Zdigits2_log2
    by (apply Z.mul_pos_pos; [lia|apply Z.pow_pos_nonneg; lia]).
  rewrite Z.log2_mul_pow2 by lia. rewrite L.
  rewrite fexp_normal by lia.
  replace (j + 52 + 1 + (e1 - j) - 53 - (e1 - j)) with j by lia.
  change (shr_record_of_loc (m1 * 2 ^ j) loc_Exact)
    with (exact_record (m1 * 2 ^ j)).
  rewrite shr_exact by lia. f_equal. lia.
Qed.

Lemma binary_round_aux_exact s m1 j e1 :
  Z.log2 m1 = 52 -> 0 <= j -> -1074 <= e1 <= 971 ->
  binary_round_aux prec emax s (m1 * 2 ^ j) (e1 - j) loc_Exact
  = S754_finite s (Z.to_pos m1) e1.
Proof.
  intros L Hj He.
  assert (Hm : 0 < m1) by (destruct m1; simpl in L; lia).
  unfold binary_round_aux. rewrite shr_fexp_exact by lia.
  cbn [shr_m exact_record loc_of_shr_record round_nearest_even].
  pose proof (shr_fexp_exact m1 0 e1 L (Z.le_refl 0) (proj1 He)) as E.
  rewrite Z.mul_1_r, Z.sub_0_r in E. rewrite E.
  cbn [shr_m exact_record]. destruct m1 as [|p|p]; try lia.
  replace (e1 <=? emax - prec) with true
    by (symmetry; apply Z.leb_le; unfold emax, prec; lia).
  reflexivity.
Qed.

Lemma iter_xO m q : Zpos (Pos.iter xO m q) = Zpos m * 2 ^ Zpos q.
Proof.
  revert m. induction q using Pos.peano_ind; intros m.
  - change (Zpos (Pos.iter xO m 1)) with (Zpos m~0). lia.
  - rewrite Pos.iter_succ, Pos2Z.inj_xO, IHq, Pos2Z.inj_succ,
      Z.pow_succ_r by lia. ring.
Qed.

Lemma shl_align_spec m ex ex' :
  shl_align m ex ex'
  = (Z.to_pos (Zpos m * 2 ^ (ex - Z.min ex ex')), Z.min ex ex').
Proof.
  unfold shl_align. destruct (ex' - ex) as [|p|p] eqn:E.
  - rewrite Z.min_l by lia. rewrite Z.sub_diag, Z.mul_1_r. reflexivity.
  - rewrite Z.min_l by lia. rewrite Z.sub_diag, Z.mul_1_r. reflexivity.
  - rewrite Z.min_r by lia. replace (ex - ex') with (Zpos p) by lia.
    rewrite <- iter_xO. reflexivity.
Qed.

(** The float nearest to [z * 2^e], as the specification has it, and its
    normal form when [0 < |z| < 2^53]. *)
Definition spec_grid (z e : Z) : spec_float :=
  binary_normalize prec emax z e false.

Definition canon (s : bool) (m0 e : Z) : spec_float :=
  S754_finite s (Z.to_pos (m0 * 2 ^ (52 - Z.log2 m0))) (e + Z.log2 m0 - 52).

Lemma binary_round_exact s m m0 k e :
  0 < m0 -> Z.log2 m0 <= 52 -> 0 <= k -> Zpos m = m0 * 2 ^ k ->
  -1022 <= e <= 971 ->
  binary_round prec emax s m (e - k) = canon s m0 e.
Proof.
  intros H0 L Hk Em He.
  pose proof (Z.log2_nonneg m0) as L0.
  unfold binary_round. rewrite digits2_pos_log2, Em.
  rewrite Z.log2_mul_pow2 by lia.
  rewrite fexp_normal by lia.
  rewrite shl_align_spec.
  set (ez := Z.min _ _).
  assert (P : 0 < m0 * 2 ^ (52 - Z.log2 m0))
    by (apply Z.mul_pos_pos; [lia|apply Z.pow_pos_nonneg; lia]).
  assert (L1 : Z.log2 (m0 * 2 ^ (52 - Z.log2 m0)) = 52)
    by (rewrite Z.log2_mul_pow2 by lia; lia).
  rewrite Z2Pos.id
    by (apply Z.mul_pos_pos; [lia|apply Z.pow_pos_nonneg; lia]).
  rewrite Em.
  replace (m0 * 2 ^ k * 2 ^ (e - k - ez))
    with (m0 * 2 ^ (52 - Z.log2 m0) * 2 ^ (e + Z.log2 m0 - 52 - ez)).
  2:{ rewrite <- !Z.mul_assoc, <- !Z.pow_add_r by lia. do 2 f_equal. lia. }
  replace ez with (e + Z.log2 m0 - 52 - (e + Z.log2 m0 - 52 - ez)) at 2
    by lia.
  apply binary_round_aux_exact; lia.
Qed.

Lemma log2_small z : z <> 0 -> Z.abs z < 2 ^ 53 -> 0 <= Z.log2 (Z.abs z) <= 52.
Proof.
  intros N B. split; [apply Z.log2_nonneg|].
  assert (Z.log2 (Z.abs z) < 53); [|lia]. apply Z.log2_lt_pow2; lia.
Qed.

Lemma spec_grid_scaled z k e :
  z <> 0 -> Z.abs z < 2 ^ 53 -> 0 <= k -> -1022 <= e <= 971 ->
  spec_grid (z * 2 ^ k) (e - k) = canon (z <? 0) (Z.abs z) e.
Proof.
  intros Hz B Hk He. pose proof (log2_small z Hz B) as L.
  assert (P : 0 < 2 ^ k) by (apply Z.pow_pos_nonneg; lia).
  unfold spec_grid, binary_normalize.
  destruct (z * 2 ^ k) as [|m|m] eqn:E.
  - nia.
  - assert (0 < z) by nia.
    replace (z <? 0) with false by (symmetry; apply Z.ltb_ge; lia).
    apply binary_round_exact; lia.
  - assert (z < 0) by nia.
    replace (z <? 0) with true by (symmetry; apply Z.ltb_lt; lia).
    apply binary_round_exact; lia.
Qed.

Lemma spec_grid_canon z e :
  z <> 0 -> Z.abs z < 2 ^ 53 -> -1022 <= e <= 971 ->
  spec_grid z e = canon (z <? 0) (Z.abs z) e.
Proof.
  intros. rewrite <- (spec_grid_scaled z 0 e) by lia.
  rewrite Z.mul_1_r, Z.sub_0_r. reflexivity.
Qed.

Lemma spec_grid_rescale z k e :
  Z.abs z < 2 ^ 53 -> 0 <= k -> -1022 <= e <= 971 ->
  spec_grid (z * 2 ^ k) (e - k) = spec_grid z e.
Proof.
  intros. destruct (Z.eq_dec z 0) as [->|N]; [reflexivity|].
  rewrite spec_grid_scaled, spec_grid_canon by lia. reflexivity.
Qed.

Lemma canon_mantissa m0 :
  0 < m0 -> Z.log2 m0 <= 52 ->
  Zpos (Z.to_pos (m0 * 2 ^ (52 - Z.log2 m0))) = m0 * 2 ^ (52 - Z.log2 m0) /\
  Z.log2 (m0 * 2 ^ (52 - Z.log2 m0)) = 52.
Proof.
  intros P L. pose proof (Z.log2_nonneg m0).
  split.
  - apply Z2Pos.id. apply Z.mul_pos_pos; [lia|apply Z.pow_pos_nonneg; lia].
  - rewrite Z.log2_mul_pow2 by lia. lia.
Qed.

Lemma spec_grid_valid z e :
  Z.abs z < 2 ^ 53 -> -1022 <= e <= 971 -> valid_binary (spec_grid z e) = true.
Proof.
  intros B He. destruct (Z.eq_dec z 0) as [->|N]; [reflexivity|].
  rewrite spec_grid_canon by lia. pose proof (log2_small z N B) as L.
  destruct (canon_mantissa (Z.abs z)) as (E1 & E2); try lia.
  unfold canon, valid_binary, bounded, canonical_mantissa.
  rewrite digits2_pos_log2, E1, E2, fexp_normal by lia.
  apply andb_true_intro. split; [apply Z.eqb_eq; lia|].
  apply Z.leb_le. unfold emax, prec. lia.
Qed.

Lemma cond_Zopp_abs z : cond_Zopp (z <? 0) (Z.abs z) = z.
Proof. destruct (Z.ltb_spec z 0); simpl; lia. Qed.

Lemma cond_Zopp_mul s a b : cond_Zopp s (a * b) = cond_Zopp s a * b.
Proof. destruct s; simpl; ring. Qed.

(** The mantissa of a normal form, aligned to a smaller exponent. *)
Lemma aligned z e ez :
  z <> 0 -> Z.abs z < 2 ^ 53 -> ez <= e + Z.log2 (Z.abs z) - 52 ->
  cond_Zopp (z <? 0)
    (Zpos (fst (shl_align (Z.to_pos (Z.abs z * 2 ^ (52 - Z.log2 (Z.abs z))))
                          (e + Z.log2 (Z.abs z) - 52) ez)))
  = z * 2 ^ (e - ez).
Proof.
  intros N B Hz. pose proof (log2_small z N B) as L.
  destruct (canon_mantissa (Z.abs z)) as (E1 & E2); try lia.
  rewrite shl_align_spec. cbn [fst]. rewrite E1, Z.min_r by lia.
  assert (P : 0 < Z.abs z * 2 ^ (52 - Z.log2 (Z.abs z))
                  * 2 ^ (e + Z.log2 (Z.abs z) - 52 - ez)).
  { repeat apply Z.mul_pos_pos; try lia; apply Z.pow_pos_nonneg; lia. }
  rewrite Z2Pos.id by exact P.
  rewrite <- Z.mul_assoc, <- Z.pow_add_r by lia.
  replace (52 - Z.log2 (Z.abs z) + (e + Z.log2 (Z.abs z) - 52 - ez))
    with (e - ez) by lia.
  rewrite cond_Zopp_mul, cond_Zopp_abs. reflexivity.
Qed.

Lemma spec_grid_zero e : spec_grid 0 e = S754_zero false.
Proof. reflexivity. Qed.

Lemma SFadd_grid a b e :
  Z.abs a < 2 ^ 53 -> Z.abs b < 2 ^ 53 -> Z.abs (a + b) < 2 ^ 53 ->
  -1022 <= e <= 971 ->
  SF64add (spec_grid a e) (spec_grid b e) = spec_grid (a + b) e.
Proof.
  intros Ba Bb Bs He.
  destruct (Z.eq_dec a 0) as [->|Na].
  { rewrite spec_grid_zero, Z.add_0_l. destruct (Z.eq_dec b 0) as [->|Nb];
      [reflexivity|]. rewrite spec_grid_canon by lia. reflexivity. }
  destruct (Z.eq_dec b 0) as [->|Nb].
  { rewrite spec_grid_zero, Z.add_0_r, spec_grid_canon by lia. reflexivity. }
  rewrite (spec_grid_canon a), (spec_grid_canon b) by lia.
  unfold canon, SF64add, SFadd.
  pose proof (log2_small a Na Ba). pose proof (log2_small b Nb Bb).
  set (ez := Z.min _ _).
  assert (Hz : ez <= e + Z.log2 (Z.abs a) - 52 /\
               ez <= e + Z.log2 (Z.abs b) - 52) by (unfold ez; lia).
  clearbody ez.
  rewrite !aligned by lia.
  rewrite <- Z.mul_add_distr_r.
  rewrite <- (spec_grid_rescale (a + b) (e - ez) e) by lia.
  unfold spec_grid. f_equal. lia.
Qed.

Lemma SFsub_grid a b e :
  Z.abs a < 2 ^ 53 -> Z.abs b < 2 ^ 53 -> Z.abs (a - b) < 2 ^ 53 ->
  -1022 <= e <= 971 ->
  SF64sub (spec_grid a e) (spec_grid b e) = spec_grid (a - b) e.
Proof.
  intros Ba Bb Bs He.
  destruct (Z.eq_dec b 0) as [->|Nb].
  { rewrite spec_grid_zero, Z.sub_0_r. destruct (Z.eq_dec a 0) as [->|Na];
      [reflexivity|]. rewrite spec_grid_canon by lia. reflexivity. }
  destruct (Z.eq_dec a 0) as [->|Na].
  { rewrite spec_grid_zero, Z.sub_0_l, (spec_grid_canon b),
      (spec_grid_canon (- b)) by lia.
    unfold canon, SF64sub, SFsub. rewrite Z.abs_opp.
    destruct b; try lia; reflexivity. }
  rewrite (spec_grid_canon a), (spec_grid_canon b) by lia.
  unfold canon, SF64sub, SFsub.
  pose proof (log2_small a Na Ba). pose proof (log2_small b Nb Bb).
  set (ez := Z.min _ _).
  assert (Hz : ez <= e + Z.log2 (Z.abs a) - 52 /\
               ez <= e + Z.log2 (Z.abs b) - 52) by (unfold ez; lia).
  clearbody ez.
  rewrite !aligned by lia.
  rewrite <- Z.mul_sub_distr_r.
  rewrite <- (spec_grid_rescale (a - b) (e - ez) e) by lia.
  unfold spec_grid. f_equal. lia.
Qed.

Lemma SFcompare_grid a b e :
  Z.abs a < 2 ^ 53 -> Z.abs b < 2 ^ 53 -> -1022 <= e <= 971 ->
  SFcompare (spec_grid a e) (spec_grid b e) = Some (a ?= b).
Proof.
  intros Ba Bb He.
  destruct (Z.eq_dec a 0) as [Za|Na]; destruct (Z.eq_dec b 0) as [Zb|Nb];
    try (rewrite Za; clear Za); try (rewrite Zb; clear Zb);
    rewrite ?spec_grid_zero;
    try rewrite (spec_grid_canon a) by lia;
    try rewrite (spec_grid_canon b) by lia;
    unfold canon; cbn [SFcompare].
  - reflexivity.
  - destruct b; try lia; reflexivity.
  - destruct a; try lia; reflexivity.
  - pose proof (log2_small a Na Ba) as La.
    pose proof (log2_small b Nb Bb) as Lb.
    destruct (canon_mantissa (Z.abs a)) as (A1 & A2); try lia.
    destruct (canon_mantissa (Z.abs b)) as (B1 & B2); try lia.
    assert (M : forall u v, 0 < u -> 0 < v -> Z.log2 u < Z.log2 v -> u < v).
    { intros u v Hu Hv H. destruct (Z.lt_ge_cases u v) as [|G]; auto.
      apply Z.log2_le_mono in G. lia. }
    assert (C : Z.log2 (Z.abs a) = Z.log2 (Z.abs b) ->
                Pos.compare_cont Eq
                  (Z.to_pos (Z.abs a * 2 ^ (52 - Z.log2 (Z.abs a))))
                  (Z.to_pos (Z.abs b * 2 ^ (52 - Z.log2 (Z.abs b))))
                = (Z.abs a ?= Z.abs b)).
    { intros E. change (Pos.compare_cont Eq ?p ?q) with (Pos.compare p q).
      rewrite Pos2Z.inj_compare, A1, B1, E.
      assert (0 < 2 ^ (52 - Z.log2 (Z.abs b)))
        by (apply Z.pow_pos_nonneg; lia).
      destruct (Z.compare_spec (Z.abs a) (Z.abs b));
        [apply Z.compare_eq_iff|apply Z.compare_lt_iff|apply Z.compare_gt_iff];
        nia. }
    f_equal.
    destruct (Z.ltb_spec a 0), (Z.ltb_spec b 0); symmetry.
    + destruct (Z.compare_spec (e + Z.log2 (Z.abs a) - 52)
                  (e + Z.log2 (Z.abs b) - 52)) as [E|E|E].
      * rewrite C by lia.
        destruct (Z.compare_spec (Z.abs a) (Z.abs b)); cbn [CompOpp];
          [apply Z.compare_eq_iff|apply Z.compare_gt_iff
          |apply Z.compare_lt_iff]; lia.
      * apply Z.compare_gt_iff.
        specialize (M (Z.abs a) (Z.abs b)). lia.
      * apply Z.compare_lt_iff.
        specialize (M (Z.abs b) (Z.abs a)). lia.
    + apply Z.compare_lt_iff. lia.
    + apply Z.compare_gt_iff. lia.
    + destruct (Z.compare_spec (e + Z.log2 (Z.abs a) - 52)
                  (e + Z.log2 (Z.abs b) - 52)) as [E|E|E].
      * rewrite C by lia. rewrite !Z.abs_eq by lia. reflexivity.
      * apply Z.compare_lt_iff.
        specialize (M (Z.abs a) (Z.abs b)). lia.
      * apply Z.compare_gt_iff.
        specialize (M (Z.abs b) (Z.abs a)). lia.
Qed.

Lemma Prim2SF_two : Prim2SF 2 = S754_finite false 4503599627370496 (-51).
Proof. reflexivity. Qed.

Lemma Prim2SF_one : Prim2SF 1 = S754_finite false 4503599627370496 (-52).
Proof. reflexivity. Qed.

Lemma SFhalf_grid a e :
  Z.abs a < 2 ^ 53 -> -1020 <= e <= 971 ->
  SF64div (spec_grid a e) (Prim2SF 2) = spec_grid a (e - 1).
Proof.
  intros B He. rewrite Prim2SF_two.
  destruct (Z.eq_dec a 0) as [->|N]; [reflexivity|].
  rewrite !spec_grid_canon by lia. pose proof (log2_small a N B) as L.
  destruct (canon_mantissa (Z.abs a)) as (E1 & E2); try lia.
  unfold canon, SF64div, SFdiv, SFdiv_core_binary.
  set (m := Z.to_pos _) in *. set (ea := e + Z.log2 (Z.abs a) - 52).
  assert (Lm : Z.log2 (Zpos m) = 52) by (rewrite E1; exact E2).
  rewrite (Zdigits2_log2 (Zpos m)) by lia. rewrite Lm.
  change (Zdigits2 4503599627370496) with 53.
  rewrite fexp_normal by (unfold ea; lia).
  replace (Z.min (52 + 1 + ea - (53 + -51) - 53) (ea - -51)) with (ea - 2)
    by lia.
  replace (ea - -51 - (ea - 2)) with 53 by lia.
  rewrite Z.shiftl_mul_pow2 by lia.
  assert (D : Z.div_eucl (Zpos m * 2 ^ 53) 4503599627370496
              = (2 * Zpos m, 0)).
  { pose proof (Z.div_eucl_eq (Zpos m * 2 ^ 53) 4503599627370496) as Q.
    pose proof (Z.mod_pos_bound (Zpos m * 2 ^ 53) 4503599627370496) as R.
    unfold Z.modulo in R.
    destruct (Z.div_eucl (Zpos m * 2 ^ 53) 4503599627370496) as [q r].
    change (2 ^ 53) with 9007199254740992 in *.
    f_equal; lia. }
  rewrite D. cbn [xorb]. rewrite xorb_false_r.
  change (new_location 4503599627370496 0) with loc_Exact.
  replace (2 * Zpos m) with (Zpos m * 2 ^ 1) by lia.
  replace (ea - 2) with (ea - 1 - 1) by lia.
  rewrite binary_round_aux_exact by (unfold ea; lia).
  rewrite Pos2Z.id. f_equal. unfold ea. lia.
Qed.

(** A finite float divided by itself is 1. *)
Lemma SFdiv_self s m e :
  SF64div (S754_finite s m e) (S754_finite s m e)
  = S754_finite false 4503599627370496 (-52).
Proof.
  unfold SF64div, SFdiv, SFdiv_core_binary.
  replace (Zdigits2 (Zpos m) + e - (Zdigits2 (Zpos m) + e)) with 0 by lia.
  rewrite Z.sub_diag.
  change (Z.min (fexp prec emax 0) 0) with (-53).
  change (0 - -53) with 53. cbv iota.
  rewrite Z.shiftl_mul_pow2 by lia.
  assert (D : Z.div_eucl (Zpos m * 2 ^ 53) (Zpos m) = (2 ^ 53, 0)).
  { pose proof (Z.div_eucl_eq (Zpos m * 2 ^ 53) (Zpos m)) as Q.
    pose proof (Z.mod_pos_bound (Zpos m * 2 ^ 53) (Zpos m)) as R.
    unfold Z.modulo in R.
    destruct (Z.div_eucl (Zpos m * 2 ^ 53) (Zpos m)) as [q r].
    assert (r = Zpos m * (2 ^ 53 - q)) by lia.
    assert (q = 2 ^ 53) by nia. f_equal; nia. }
  rewrite D. rewrite xorb_nilpotent.
  replace (new_location (Zpos m) 0) with loc_Exact
    by (unfold new_location, new_location_even, new_location_odd;
        destruct (Z.even (Zpos m)); reflexivity).
  apply (binary_round_aux_exact false 4503599627370496 1 (-52));
    [reflexivity|lia|lia].
Qed.

Lemma SFmul_one_grid z e :
  Z.abs z < 2 ^ 53 -> -1022 <= e <= 971 ->
  SF64mul (spec_grid z e) (Prim2SF 1) = spec_grid z e.
Proof.
  intros B He. rewrite Prim2SF_one.
  destruct (Z.eq_dec z 0) as [->|N]; [reflexivity|].
  rewrite spec_grid_canon by lia. pose proof (log2_small z N B) as L.
  destruct (canon_mantissa (Z.abs z)) as (E1 & E2); try lia.
  unfold canon, SF64mul, SFmul. set (m := Z.to_pos _) in *.
  rewrite xorb_false_r, Pos2Z.inj_mul.
  change (Zpos 4503599627370496) with (2 ^ 52).
  replace (e + Z.log2 (Z.abs z) - 52 + -52)
    with (e + Z.log2 (Z.abs z) - 52 - 52) by lia.
  rewrite binary_round_aux_exact by (rewrite ?E1; lia).
  rewrite Pos2Z.id. reflexivity.
Qed.

(** *** Floats on a grid

    [grid z e] is the float [z * 2^e]; a box is on the grid of step [2^e]
    when its four coordinates are. *)

Definition grid (z e : Z) : float := SF2Prim (spec_grid z e).

Definition on_grid_box (e x0 y0 x1 y1 : Z) : Binary64.BBox :=
  Binary64.mkBBox (grid x0 e) (grid y0 e) (grid x1 e) (grid y1 e).

(** The steps and the multiples for which the crops do not round. *)
Definition fits (e : Z) : Prop := -1000 <= e <= 900.
Definition small (z : Z) : Prop := Z.abs z < 2 ^ 50.

(** [a] lies inside [b], by the comparisons of the floats. *)
Definition float_inside (a b : Binary64.BBox) : bool :=
  (Binary64.minx b <=? Binary64.minx a)%float
  && (Binary64.miny b <=? Binary64.miny a)%float
  && (Binary64.maxx a <=? Binary64.maxx b)%float
  && (Binary64.maxy a <=? Binary64.maxy b)%float.

Lemma Prim2SF_grid z e :
  Z.abs z < 2 ^ 53 -> -1022 <= e <= 971 -> Prim2SF (grid z e) = spec_grid z e.
Proof. intros. apply Prim2SF_SF2Prim, spec_grid_valid; assumption. Qed.

Lemma grid_add a b e :
  Z.abs a < 2 ^ 53 -> Z.abs b < 2 ^ 53 -> Z.abs (a + b) < 2 ^ 53 ->
  -1022 <= e <= 971 ->
  (grid a e + grid b e)%float = grid (a + b) e.
Proof.
  intros. apply Prim2SF_inj. rewrite add_spec, !Prim2SF_grid by assumption.
  apply SFadd_grid; assumption.
Qed.

Lemma grid_sub a b e :
  Z.abs a < 2 ^ 53 -> Z.abs b < 2 ^ 53 -> Z.abs (a - b) < 2 ^ 53 ->
  -1022 <= e <= 971 ->
  (grid a e - grid b e)%float = grid (a - b) e.
Proof.
  intros. apply Prim2SF_inj. rewrite sub_spec, !Prim2SF_grid by assumption.
  apply SFsub_grid; assumption.
Qed.

Lemma grid_half a e :
  Z.abs a < 2 ^ 53 -> -1020 <= e <= 971 ->
  (grid a e / 2)%float = grid a (e - 1).
Proof.
  intros. apply Prim2SF_inj. rewrite div_spec, !Prim2SF_grid by lia.
  apply SFhalf_grid; assumption.
Qed.

Lemma grid_ltb a b e :
  Z.abs a < 2 ^ 53 -> Z.abs b < 2 ^ 53 -> -1022 <= e <= 971 ->
  (grid a e <? grid b e)%float = (a <? b).
Proof.
  intros. rewrite ltb_spec, !Prim2SF_grid by assumption.
  unfold SFltb. rewrite SFcompare_grid by assumption. reflexivity.
Qed.

Lemma grid_leb a b e :
  Z.abs a < 2 ^ 53 -> Z.abs b < 2 ^ 53 -> -1022 <= e <= 971 ->
  (grid a e <=? grid b e)%float = (a <=? b).
Proof.
  intros. rewrite leb_spec, !Prim2SF_grid by assumption.
  unfold SFleb. rewrite SFcompare_grid by assumption.
  unfold Z.leb. destruct (a ?= b); reflexivity.
Qed.

Lemma grid_rescale z k e :
  Z.abs z < 2 ^ 53 -> 0 <= k -> -1022 <= e <= 971 ->
  grid (z * 2 ^ k) (e - k) = grid z e.
Proof. intros. unfold grid. f_equal. apply spec_grid_rescale; assumption. Qed.

Lemma grid_double z e :
  Z.abs z < 2 ^ 52 -> -1021 <= e <= 971 -> grid z e = grid (2 * z) (e - 1).
Proof.
  intros. rewrite <- (grid_rescale z 1 e) by lia. f_equal. lia.
Qed.

Lemma grid_max a b e :
  Z.abs a < 2 ^ 53 -> Z.abs b < 2 ^ 53 -> -1022 <= e <= 971 ->
  Binary64.max (grid a e) (grid b e) = grid (Z.max a b) e.
Proof.
  intros. unfold Binary64.max. rewrite grid_ltb by assumption.
  destruct (Z.ltb_spec a b); f_equal; lia.
Qed.

Lemma grid_zero e : grid 0 e = 0%float.
Proof. reflexivity. Qed.

Lemma grid_mul_one z e :
  Z.abs z < 2 ^ 53 -> -1022 <= e <= 971 -> (grid z e * 1)%float = grid z e.
Proof.
  intros. apply Prim2SF_inj. rewrite mul_spec, !Prim2SF_grid by assumption.
  apply SFmul_one_grid; assumption.
Qed.

Lemma div_self f s m e :
  Prim2SF f = S754_finite s m e -> (f / f)%float = 1%float.
Proof.
  intros E. apply Prim2SF_inj. rewrite div_spec, E, Prim2SF_one.
  apply SFdiv_self.
Qed.

Ltac bounds := unfold small, fits in *; lia.

Ltac on_grid :=
  repeat (first
    [ rewrite grid_add by bounds
    | rewrite grid_sub by bounds
    | rewrite grid_max by bounds
    | rewrite grid_half by bounds ]).

(** The number a float of the grid stands for. *)
Lemma value_canon z e :
  z <> 0 -> Z.abs z < 2 ^ 53 ->
  (Binary64.value (z <? 0)
     (Z.to_pos (Z.abs z * 2 ^ (52 - Z.log2 (Z.abs z))))
     (e + Z.log2 (Z.abs z) - 52)
   == inject_Z z * 2 ^ e)%Q.
Proof.
  intros N Bz. pose proof (log2_small z N Bz) as L.
  destruct (canon_mantissa (Z.abs z)) as (E1 & _); try lia.
  unfold Binary64.value. rewrite E1, cond_Zopp_mul, cond_Zopp_abs.
  rewrite inject_Z_mult, Zpower_Qpower by lia.
  replace (e + Z.log2 (Z.abs z) - 52)
    with (e + - (52 - Z.log2 (Z.abs z))) by lia.
  rewrite Qpower_plus by discriminate. rewrite Qpower_opp.
  set (t := (inject_Z 2 ^ (52 - Z.log2 (Z.abs z)))%Q).
  assert (T : ~ (t == 0)%Q).
  { unfold t. apply Qpower_not_0. discriminate. }
  change (inject_Z 2) with 2%Q in *. fold t. field. exact T.
Qed.

Lemma exact_grid z e :
  Z.abs z < 2 ^ 53 -> -1022 <= e <= 971 ->
  exists q, Binary64.exact (grid z e) = Some q /\ (q == inject_Z z * 2 ^ e)%Q.
Proof.
  intros Bz He. unfold Binary64.exact. rewrite Prim2SF_grid by assumption.
  destruct (Z.eq_dec z 0) as [->|N].
  - exists 0%Q. split; [reflexivity|]. change (inject_Z 0) with 0%Q. ring.
  - rewrite spec_grid_canon by lia. unfold canon. eexists.
    split; [reflexivity|]. apply value_canon; assumption.
Qed.

Lemma round_grid z :
  Z.abs z < 2 ^ 53 -> Binary64.round (grid z 0) = Binary64.Return z.
Proof.
  intros Bz. unfold Binary64.round. rewrite Prim2SF_grid by lia.
  destruct (Z.eq_dec z 0) as [->|N]; [reflexivity|].
  rewrite spec_grid_canon by lia. unfold canon. f_equal.
  transitivity (py_round (inject_Z z)); [|apply py_round_Z].
  apply py_round_comp.
  rewrite value_canon by assumption. change (2 ^ 0)%Q with 1%Q. ring.
Qed.

Lemma float_of_int_grid z :
  Z.abs z < 2 ^ 53 -> Binary64.float_of_int z = Some (grid z 0).
Proof.
  intros Bz. unfold Binary64.float_of_int. fold (spec_grid z 0).
  destruct (Z.eq_dec z 0) as [->|N]; [reflexivity|].
  unfold grid. rewrite spec_grid_canon by lia. reflexivity.
Qed.

(** A float that stands for a number, raised to 1 when it is smaller, is a
    finite float other than zero. *)
Lemma max_one_finite f :
  Binary64.exact f <> None ->
  exists s m e, Prim2SF (Binary64.max f 1) = S754_finite s m e.
Proof.
  unfold Binary64.exact, Binary64.max. rewrite ltb_spec, Prim2SF_one.
  destruct (Prim2SF f) as [s|s| |s m e] eqn:E; try congruence; intros _.
  - destruct s; do 3 eexists; exact Prim2SF_one.
  - destruct (SFltb _ _); [do 3 eexists; exact Prim2SF_one|eauto].
Qed.

(** *** The square crop *)

(** The square crop of a box on the grid, with a padding on the grid: the
    centre [(x0 + x1) / 2, (y0 + y1) / 2] and the side
    [max (x1 - x0) (y1 - y0) + 2 p] are those of the multiples. *)
Lemma crop_to_square_grid e x0 y0 x1 y1 p :
  fits e -> small x0 -> small y0 -> small x1 -> small y1 -> small p ->
  Binary64.crop_to_square (on_grid_box e x0 y0 x1 y1) (grid p e)
  = let side := Z.max (x1 - x0) (y1 - y0) + 2 * p in
    on_grid_box (e - 1) (x0 + x1 - side) (y0 + y1 - side)
                (x0 + x1 + side) (y0 + y1 + side).
Proof.
  intros He H0 H1 H2 H3 Hp.
  unfold on_grid_box, Binary64.crop_to_square.
  cbn [Binary64.minx Binary64.miny Binary64.maxx Binary64.maxy].
  on_grid. cbv zeta. f_equal; f_equal; lia.
Qed.

(** A float on the grid of step [2^e]: a multiple [z * 2^e] with
    [|z| < 2^50]; and a box with its four coordinates on that grid. *)
Definition on_grid (e : Z) (f : float) : Prop :=
  exists z, small z /\ f = grid z e.

Definition box_on_grid (e : Z) (b : Binary64.BBox) : Prop :=
  on_grid e (Binary64.minx b) /\ on_grid e (Binary64.miny b) /\
  on_grid e (Binary64.maxx b) /\ on_grid e (Binary64.maxy b).

(** C8, amended: the square crop is square and keeps the centre where its
    arithmetic does not round.  For a box whose coordinates are multiples of
    one power of two [2^e], with a padding that is such a multiple too (all
    multipliers below [2^50]), the float width of [crop_to_square] equals
    its float height, both are the larger of the box's width and height plus
    twice the padding, and the centre is the centre of the box.  No sign of
    the padding and no ordering of the coordinates is needed. *)
Theorem crop_to_square_is_square e b pad :
  fits e -> box_on_grid e b -> on_grid e pad ->
  let c := Binary64.crop_to_square b pad in
  Binary64.w c = Binary64.h c /\
  Binary64.w c
  = (Binary64.max (Binary64.w b) (Binary64.h b) + (pad + pad))%float /\
  Binary64.cx c = Binary64.cx b /\
  Binary64.cy c = Binary64.cy b.
Proof.
  intros He (X0 & Y0 & X1 & Y1) P c. unfold c. clear c.
  destruct b as [bx0 by0 bx1 by1].
  cbn [Binary64.minx Binary64.miny Binary64.maxx Binary64.maxy] in *.
  destruct X0 as (x0 & H0 & ->), Y0 as (y0 & H1 & ->),
    X1 as (x1 & H2 & ->), Y1 as (y1 & H3 & ->), P as (p & Hp & ->).
  change (Binary64.mkBBox (grid x0 e) (grid y0 e) (grid x1 e) (grid y1 e))
    with (on_grid_box e x0 y0 x1 y1).
  rewrite crop_to_square_grid by assumption. cbv zeta.
  unfold on_grid_box, Binary64.w, Binary64.h, Binary64.cx, Binary64.cy.
  cbn [Binary64.minx Binary64.miny Binary64.maxx Binary64.maxy].
  on_grid. unfold small, fits in *.
  repeat split.
  - f_equal. lia.
  - rewrite <- (grid_rescale (Z.max (x1 - x0) (y1 - y0) + (p + p)) 1 e)
      by lia.
    f_equal. lia.
  - rewrite <- (grid_rescale (x0 + x1) 1 (e - 1)) by lia. f_equal; lia.
  - rewrite <- (grid_rescale (y0 + y1) 1 (e - 1)) by lia. f_equal; lia.
Qed.

(** The box (67.25, 423.75)-(296.5, 501) padded by 12.5: all are multiples
    of a quarter. *)
Lemma crop_to_square_is_square_witness :
  let b := Binary64.mkBBox 67.25 423.75 296.5 501 in
  let c := Binary64.crop_to_square b 12.5 in
  Binary64.w c = Binary64.h c /\
  Binary64.w c
  = (Binary64.max (Binary64.w b) (Binary64.h b) + (12.5 + 12.5))%float /\
  Binary64.cx c = Binary64.cx b /\
  Binary64.cy c = Binary64.cy b.
Proof.
  apply (crop_to_square_is_square (-2)
           (Binary64.mkBBox 67.25 423.75 296.5 501) 12.5).
  - unfold fits. lia.
  - repeat split;
      [exists 269|exists 1695|exists 1186|exists 2004];
      (split; [unfold small; lia|vm_compute; reflexivity]).
  - exists 50. split; [unfold small; lia|vm_compute; reflexivity].
Defined.

(** C8, as the spec has it, fails on the floats the script computes with.
    For the box (67.18, 423.72)-(296.55, 500.99) padded by 12.5 the crop is
    254.37 wide and 254.36999999999995 high; the crop of the box
    (0, 0)-(0.1, 0.3) without padding has its centre at
    x = 0.05000000000000001, not at 0.05; and the crop of the box
    (0, 2^53 + 2)-(1, 2^53 + 4) without padding is 2 wide and 0 high. *)
Lemma float_crop_is_not_square :
  let b1 := Binary64.mkBBox 67.18 423.72 296.55 500.99 in
  let b2 := Binary64.mkBBox 0 0 0.1 0.3 in
  let b3 := Binary64.mkBBox 0 9007199254740994 1 9007199254740996 in
  PrimFloat.eqb (Binary64.w (Binary64.crop_to_square b1 12.5))
                (Binary64.h (Binary64.crop_to_square b1 12.5)) = false /\
  PrimFloat.eqb (Binary64.cx (Binary64.crop_to_square b2 0))
                (Binary64.cx b2) = false /\
  Binary64.w (Binary64.crop_to_square b3 0) = 2%float /\
  Binary64.h (Binary64.crop_to_square b3 0) = 0%float.
Proof. repeat split; vm_compute; reflexivity. Qed.

(** The canvas as the spec words it: only a width or height that is not
    greater than zero is replaced by 1 (the quotient is taken first, as the
    script takes it). *)
Definition floored (d : float) : float :=
  if (d <=? 0)%float then 1%float else d.

Definition canvas_as_specified (vb : Binary64.BBox) (max_w : Z)
  : Binary64.py (Z * Z) :=
  match Binary64.float_of_int max_w with
  | None => Binary64.OverflowError
  | Some max_w' =>
      match Binary64.round
              (max_w' * (floored (Binary64.h vb) / floored (Binary64.w vb)))
      with
      | Binary64.Return height => Binary64.Return (max_w, clamp_height height)
      | Binary64.OverflowError => Binary64.OverflowError
      | Binary64.ValueError => Binary64.ValueError
      end
  end.

(** [0 < d < 1] *)
Definition strictly_between_0_and_1 (d : float) : bool :=
  ((0 <? d) && (d <? 1))%float.

Lemma max_one_floored d :
  strictly_between_0_and_1 d = false -> Binary64.max d 1 = floored d.
Proof.
  unfold strictly_between_0_and_1, Binary64.max, floored.
  rewrite !ltb_spec, leb_spec, Prim2SF_one.
  change (Prim2SF 0) with (S754_zero false).
  destruct (Prim2SF d) as [s|s| |s m e]; try destruct s;
    unfold SFltb, SFleb; cbn [SFcompare andb]; try reflexivity.
  destruct (match (e ?= -52) with Lt => Lt | Gt => Gt | Eq => _ end);
    first [discriminate|reflexivity].
Qed.

(** C9, amended: the canvas on the floats of the script.  Whenever
    [svg_canvas_for_viewbox] returns, the width is the maximum width and the
    height is [round] of the float [max_w * (h / w)], clamped into
    [220, 640] and so never outside it; [h] and [w] are the float height
    and width of the viewport, each raised to 1 when it is smaller than 1.
    The call raises [OverflowError] exactly when the maximum width is beyond
    the floats or that float is an infinity, and [ValueError] exactly when it
    is a NaN.  For a viewport with no dimension strictly between 0 and 1 the
    outcome is the one the spec words. *)
Theorem svg_canvas_for_viewbox_spec vb max_w :
  match Binary64.svg_canvas_for_viewbox vb max_w with
  | Binary64.Return (width, height) =>
      width = max_w /\ 220 <= height <= 640 /\
      exists max_w' q,
        Binary64.float_of_int max_w = Some max_w' /\
        Binary64.exact
          (max_w' * (Binary64.max (Binary64.h vb) 1
                     / Binary64.max (Binary64.w vb) 1))%float = Some q /\
        height = clamp_height (py_round q)
  | Binary64.OverflowError =>
      Binary64.float_of_int max_w = None \/
      exists max_w' s,
        Binary64.float_of_int max_w = Some max_w' /\
        Prim2SF (max_w' * (Binary64.max (Binary64.h vb) 1
                           / Binary64.max (Binary64.w vb) 1))%float
        = S754_infinity s
  | Binary64.ValueError =>
      exists max_w',
        Binary64.float_of_int max_w = Some max_w' /\
        Prim2SF (max_w' * (Binary64.max (Binary64.h vb) 1
                           / Binary64.max (Binary64.w vb) 1))%float
        = S754_nan
  end /\
  (strictly_between_0_and_1 (Binary64.w vb) = false ->
   strictly_between_0_and_1 (Binary64.h vb) = false ->
   Binary64.svg_canvas_for_viewbox vb max_w = canvas_as_specified vb max_w).
Proof.
  split.
  - unfold Binary64.svg_canvas_for_viewbox, Binary64.round, Binary64.exact.
    destruct (Binary64.float_of_int max_w) as [fw|]; [|left; reflexivity].
    destruct (Prim2SF (fw * _)) as [s|s| |s m e] eqn:E.
    + split; [reflexivity|]. split; [lia|]. exists fw, 0%Q. rewrite E. auto.
    + right. exists fw, s. auto.
    + exists fw. auto.
    + split; [reflexivity|]. split; [lia|].
      exists fw, (Binary64.value s m e). rewrite E. auto.
  - intros W H.
    unfold Binary64.svg_canvas_for_viewbox, canvas_as_specified.
    rewrite (max_one_floored _ W), (max_one_floored _ H). reflexivity.
Qed.

(** A viewport five times as wide as high, and one with no width at all. *)
Lemma svg_canvas_for_viewbox_spec_witness :
  Binary64.svg_canvas_for_viewbox (Binary64.mkBBox 0 0 500 100) 640
  = canvas_as_specified (Binary64.mkBBox 0 0 500 100) 640 /\
  Binary64.svg_canvas_for_viewbox (Binary64.mkBBox 7 0 7 300) 640
  = canvas_as_specified (Binary64.mkBBox 7 0 7 300) 640.
Proof.
  split.
  - apply (proj2 (svg_canvas_for_viewbox_spec
                    (Binary64.mkBBox 0 0 500 100) 640));
      vm_compute; reflexivity.
  - apply (proj2 (svg_canvas_for_viewbox_spec
                    (Binary64.mkBBox 7 0 7 300) 640));
      vm_compute; reflexivity.
Defined.

(** C9, as the spec has it, fails for a viewport smaller than 1 in a
    dimension: a viewport 0.5 wide and 0.25 high has ratio 1:2, which asks
    for height 320 at width 640, and the script answers 640. *)
Lemma small_viewport_is_raised_to_one :
  let vb := Binary64.mkBBox 0 0 0.5 0.25 in
  Binary64.svg_canvas_for_viewbox vb 640 = Binary64.Return (640, 640) /\
  canvas_as_specified vb 640 = Binary64.Return (640, 320).
Proof. split; vm_compute; reflexivity. Qed.

(** The float [max_w * (h / w)] is the ratio only up to the rounding of the
    quotient and of the product: for the viewport
    (323.47, 147.77)-(861.07, 427.91) the decimal numbers give 333.5, which
    [round] takes to 334, and the floats give 333.  A viewport 1 wide and
    [2^1020] high makes the product an infinity, and [round] raises. *)
Lemma float_canvas_examples :
  Binary64.svg_canvas_for_viewbox
    (Binary64.mkBBox 323.47 147.77 861.07 427.91) 640
  = Binary64.Return (640, 333) /\
  py_round (640 * ((42791 # 100) - (14777 # 100))
            / ((86107 # 100) - (32347 # 100)))%Q = 334 /\
  Binary64.svg_canvas_for_viewbox
    (Binary64.mkBBox 0 0 1 (Z.ldexp 1 1020)) 640
  = Binary64.OverflowError.
Proof. repeat split; vm_compute; reflexivity. Qed.

(** *** Further properties of the crops and the canvas *)

(** X20: the square crop cuts nothing off where its arithmetic does not
    round.  For a box and a padding on one grid, the box padded on every
    side lies inside the crop, and so does the box itself when the padding
    is not negative. *)
Theorem crop_to_square_contains e x0 y0 x1 y1 p :
  fits e -> small x0 -> small y0 -> small x1 -> small y1 -> small p ->
  let b := on_grid_box e x0 y0 x1 y1 in
  let c := Binary64.crop_to_square b (grid p e) in
  float_inside
    (Binary64.crop_rect b (grid p e) (grid p e) (grid p e) (grid p e)) c
  = true /\
  (0 <= p -> float_inside b c = true).
Proof.
  intros He H0 H1 H2 H3 Hp b c. unfold c, b.
  rewrite crop_to_square_grid by assumption. cbv zeta.
  unfold on_grid_box, Binary64.crop_rect, float_inside.
  cbn [Binary64.minx Binary64.miny Binary64.maxx Binary64.maxy].
  on_grid.
  rewrite (grid_double (x0 - p)), (grid_double (y0 - p)),
    (grid_double (x1 + p)), (grid_double (y1 + p)),
    (grid_double x0), (grid_double x1), (grid_double y0), (grid_double y1)
    by bounds.
  rewrite !grid_leb by bounds.
  split; [|intros P]; rewrite !andb_true_iff, !Z.leb_le; lia.
Qed.

Lemma crop_to_square_contains_witness :
  let b := on_grid_box (-2) 269 1695 1186 2004 in
  float_inside b (Binary64.crop_to_square b (grid 50 (-2))) = true.
Proof.
  apply (crop_to_square_contains (-2) 269 1695 1186 2004 50);
    unfold fits, small; lia.
Defined.

(** X21: [crop_rect] moves each side by its own padding.  For a box and
    four paddings on one grid the float width and height of the crop are
    those of the box plus the two paddings of their axis, paddings that are
    not negative keep the box inside the crop, and four zero paddings give
    the box back. *)
Theorem crop_rect_sides e x0 y0 x1 y1 l r t u :
  fits e -> small x0 -> small y0 -> small x1 -> small y1 ->
  small l -> small r -> small t -> small u ->
  let b := on_grid_box e x0 y0 x1 y1 in
  let c := Binary64.crop_rect b (grid l e) (grid r e) (grid t e) (grid u e) in
  Binary64.w c = (Binary64.w b + grid l e + grid r e)%float /\
  Binary64.h c = (Binary64.h b + grid t e + grid u e)%float /\
  (0 <= l -> 0 <= r -> 0 <= t -> 0 <= u -> float_inside b c = true) /\
  Binary64.crop_rect b 0 0 0 0 = b.
Proof.
  intros He H0 H1 H2 H3 Hl Hr Ht Hu b c.
  unfold c, b, on_grid_box, Binary64.crop_rect, float_inside, Binary64.w,
    Binary64.h.
  cbn [Binary64.minx Binary64.miny Binary64.maxx Binary64.maxy].
  rewrite <- !(grid_zero e). on_grid.
  rewrite !grid_leb by bounds.
  repeat split.
  - f_equal. lia.
  - f_equal. lia.
  - intros. rewrite !andb_true_iff, !Z.leb_le. lia.
  - rewrite !Z.sub_0_r, !Z.add_0_r. reflexivity.
Qed.

(** The paddings of [main] for AKE and AKH around a box in quarters. *)
Lemma crop_rect_sides_witness :
  let b := on_grid_box (-2) 269 1695 1186 2004 in
  let c := Binary64.crop_rect b (grid 72 (-2)) (grid 72 (-2))
             (grid 480 (-2)) (grid 176 (-2)) in
  Binary64.w c = (Binary64.w b + grid 72 (-2) + grid 72 (-2))%float /\
  float_inside b c = true.
Proof.
  destruct (crop_rect_sides (-2) 269 1695 1186 2004 72 72 480 176)
    as (W & _ & I & _); try (unfold fits, small; lia).
  split; [exact W|apply I; lia].
Defined.

(** X22: a square viewport gets a canvas as high as wide, up to the clamp.
    When the float width of the viewport equals its float height and is a
    number, the quotient is exactly 1 and the canvas is [max_w] wide and
    [max_w] clamped into [220, 640] high; for the square crop of a box on a
    grid, at [max_w = 640] as [main] calls it, that is 640 by 640. *)
Theorem square_crop_canvas :
  (forall vb max_w,
      Z.abs max_w < 2 ^ 53 ->
      Binary64.w vb = Binary64.h vb ->
      Binary64.exact (Binary64.w vb) <> None ->
      Binary64.svg_canvas_for_viewbox vb max_w
      = Binary64.Return (max_w, clamp_height max_w)) /\
  (forall e x0 y0 x1 y1 p,
      fits e -> small x0 -> small y0 -> small x1 -> small y1 -> small p ->
      Binary64.svg_canvas_for_viewbox
        (Binary64.crop_to_square (on_grid_box e x0 y0 x1 y1) (grid p e)) 640
      = Binary64.Return (640, 640)).
Proof.
  assert (S : forall vb max_w,
             Z.abs max_w < 2 ^ 53 ->
             Binary64.w vb = Binary64.h vb ->
             Binary64.exact (Binary64.w vb) <> None ->
             Binary64.svg_canvas_for_viewbox vb max_w
             = Binary64.Return (max_w, clamp_height max_w)).
  { intros vb max_w Bw E F. unfold Binary64.svg_canvas_for_viewbox.
    rewrite float_of_int_grid by assumption. rewrite <- E.
    destruct (max_one_finite _ F) as (s & m & e & M).
    rewrite (div_self _ _ _ _ M), grid_mul_one, round_grid by lia.
    reflexivity. }
  split; [exact S|].
  intros e x0 y0 x1 y1 p He H0 H1 H2 H3 Hp.
  rewrite (S _ 640); [reflexivity|lia| |];
    rewrite crop_to_square_grid by assumption; cbv zeta;
    unfold on_grid_box, Binary64.w, Binary64.h;
    cbn [Binary64.minx Binary64.miny Binary64.maxx Binary64.maxy]; on_grid.
  - f_equal. lia.
  - destruct (exact_grid
                (x0 + x1 + (Z.max (x1 - x0) (y1 - y0) + 2 * p)
                 - (x0 + x1 - (Z.max (x1 - x0) (y1 - y0) + 2 * p)))
                (e - 1)) as (q & Q & _); try bounds.
    rewrite Q. discriminate.
Qed.

Lemma square_crop_canvas_witness :
  Binary64.svg_canvas_for_viewbox
    (Binary64.crop_to_square (on_grid_box (-2) 269 1695 1186 2004)
       (grid 360 (-2))) 640
  = Binary64.Return (640, 640).
Proof.
  apply (proj2 square_crop_canvas (-2) 269 1695 1186 2004 360);
    unfold fits, small; lia.
Defined.

(** X23: the canvas height follows the float [max_w * (h / w)] as far as the
    clamp lets it.  Whenever that float is a number [q] the call returns;
    where [q] is at most 220 the height is 220, where it is at least 640 the
    height is 640, and in between the height is within half a pixel of
    [q]. *)
Theorem canvas_height_follows_ratio vb max_w max_w' q :
  Binary64.float_of_int max_w = Some max_w' ->
  Binary64.exact
    (max_w' * (Binary64.max (Binary64.h vb) 1
               / Binary64.max (Binary64.w vb) 1))%float = Some q ->
  exists height,
    Binary64.svg_canvas_for_viewbox vb max_w
    = Binary64.Return (max_w, height) /\
    ((q <= 220)%Q -> height = 220) /\
    ((640 <= q)%Q -> height = 640) /\
    ((220 <= q <= 640)%Q -> (Qabs (inject_Z height - q) <= 1 # 2)%Q).
Proof.
  intros F X. exists (clamp_height (py_round q)).
  assert (R : Binary64.round
                (max_w' * (Binary64.max (Binary64.h vb) 1
                           / Binary64.max (Binary64.w vb) 1))%float
              = Binary64.Return (py_round q)).
  { revert X. unfold Binary64.exact, Binary64.round.
    destruct (Prim2SF _); intros [= <-]; reflexivity. }
  split; [|split; [|split]].
  - unfold Binary64.svg_canvas_for_viewbox. rewrite F, R. reflexivity.
  - intros H. apply (py_round_le q 220) in H. unfold clamp_height. lia.
  - intros H. apply (py_round_ge q 640) in H. unfold clamp_height. lia.
  - intros (L & U).
    apply (py_round_ge q 220) in L. apply (py_round_le q 640) in U.
    unfold clamp_height.
    replace (Z.max 220 (Z.min 640 (py_round q))) with (py_round q) by lia.
    destruct (py_round_near q). apply (proj2 (Qabs_Qle_condition _ _)).
    split; lra.
Qed.

(** A viewport five times as wide as high: the ratio asks for 128. *)
Lemma canvas_height_follows_ratio_witness :
  Binary64.svg_canvas_for_viewbox (Binary64.mkBBox 0 0 500 100) 640
  = Binary64.Return (640, 220).
Proof.
  destruct (canvas_height_follows_ratio (Binary64.mkBBox 0 0 500 100) 640
              _ _ eq_refl eq_refl) as (height & E & L & _).
  rewrite E, L; [reflexivity|]. vm_compute. discriminate.
Defined.

Lemma grid_const c e :
  Z.abs c < 2 ^ 10 -> -40 <= e <= 0 -> grid c 0 = grid (c * 2 ^ (- e)) e.
Proof.
  intros. rewrite <- (grid_rescale c (- e) 0) by lia. f_equal. lia.
Qed.

Lemma grid_add_zero z e :
  Z.abs z < 2 ^ 53 -> -1022 <= e <= 971 -> (grid z e + 0)%float = grid z e.
Proof.
  intros. rewrite <- (grid_zero e), grid_add by lia. f_equal. lia.
Qed.

(** X24: the paths of a cluster go into its picture.  For a cluster box and
    a path box on one grid of step [2^e], [-40 <= e <= 0], every path whose
    box is well formed and lies inside the cluster box is kept: by the
    overlap test against the square crop (padding 90) widened by the margin
    12 for a target other than AKE and AKH, and with the whole body for
    these two. *)
Theorem paths_of_the_cluster_are_kept code e x0 y0 x1 y1 px0 py0 px1 py1 :
  -40 <= e <= 0 ->
  small x0 -> small y0 -> small x1 -> small y1 ->
  small px0 -> small py0 -> small px1 -> small py1 ->
  px0 <= px1 -> py0 <= py1 ->
  x0 <= px0 -> px1 <= x1 -> y0 <= py0 -> py1 <= y1 ->
  Binary64.keeps code
    (Binary64.viewbox_for code (on_grid_box e x0 y0 x1 y1))
    (on_grid_box e px0 py0 px1 py1)
  = true.
Proof.
  intros He H0 H1 H2 H3 P0 P1 P2 P3 Wx Wy Ix0 Ix1 Iy0 Iy1.
  unfold Binary64.keeps, Binary64.viewbox_for.
  destruct (Binary64.keeps_body code); [reflexivity|].
  assert (T : 1 <= 2 ^ (- e) <= 2 ^ 40).
  { split; [apply (Z.pow_le_mono_r 2 0 (- e))
           |apply (Z.pow_le_mono_r 2 (- e) 40)]; lia. }
  assert (F : fits e) by (unfold fits; lia).
  change 90%float with (grid 90 0). rewrite (grid_const 90 e) by lia.
  unfold Binary64.keep_region.
  change 12%float with (grid 12 0). rewrite (grid_const 12 e) by lia.
  set (t := 2 ^ (- e)) in *. clearbody t.
  rewrite crop_to_square_grid by (try assumption; bounds). cbv zeta.
  unfold Binary64.overlaps, on_grid_box.
  cbn [Binary64.minx Binary64.miny Binary64.maxx Binary64.maxy].
  rewrite !(grid_double (12 * t) e) by bounds.
  on_grid. rewrite !grid_add_zero by bounds.
  rewrite (grid_double px0), (grid_double px1), (grid_double py0),
    (grid_double py1) by bounds.
  rewrite !grid_ltb by bounds.
  repeat match goal with
         | |- context [(?a <? ?b)] =>
             replace (a <? b) with false by (symmetry; apply Z.ltb_ge; lia)
         end.
  reflexivity.
Qed.

(** A label inside the LD9 cluster, in quarters. *)
Lemma paths_of_the_cluster_are_kept_witness :
  Binary64.keeps "LD9"
    (Binary64.viewbox_for "LD9" (on_grid_box (-2) 2000 0 2400 240))
    (on_grid_box (-2) 2040 40 2080 80)
  = true.
Proof.
  apply (paths_of_the_cluster_are_kept "LD9" (-2) 2000 0 2400 240
           2040 40 2080 80); unfold small; lia.
Defined.

End OnFloats.

(** ** Choosing the targets *)

Lemma insert_by_length key b l : length (insert_by key b l) = S (length l).
Proof.
  induction l as [|c l IH]; simpl; auto.
  destruct (Qltb (key c) (key b)); simpl; auto.
Qed.

Lemma sort_by_length key l : length (sort_by key l) = length l.
Proof.
  induction l as [|c l IH]; simpl; auto.
  rewrite insert_by_length, IH. reflexivity.
Qed.

Lemma index_from_short top k n :
  (k <= length top)%nat -> (length top < k + n)%nat ->
  index_from top k n = IndexError.
Proof.
  revert k; induction n as [|n IH]; intros k K H; simpl.
  - lia.
  - destruct (nth_error top k) as [b|] eqn:E; auto.
    assert (k < length top)%nat by (apply nth_error_Some; congruence).
    rewrite IH; auto; lia.
Qed.

Lemma index_from_selected top k n targets :
  (k <= length top)%nat ->
  index_from top k n = Selected targets ->
  length targets = n /\ (k + n <= length top)%nat.
Proof.
  revert k targets; induction n as [|n IH]; intros k targets K; simpl.
  - intros [= <-]. split; auto. lia.
  - destruct (nth_error top k) as [b|] eqn:E; [|discriminate].
    assert (k < length top)%nat by (apply nth_error_Some; congruence).
    destruct (index_from top (S k) n) as [bs|] eqn:F; [|discriminate].
    assert (K' : (S k <= length top)%nat) by lia.
    intros [= <-]. destruct (IH _ _ K' F) as (L & B). simpl. split; lia.
Qed.

Lemma top_length n clusters :
  length (sort_by cx (firstn n (sort_by cy (filter plausible clusters))))
  = Nat.min n (length (filter plausible clusters)).
Proof. rewrite sort_by_length, length_firstn, sort_by_length. reflexivity. Qed.

(** C2: when fewer clusters than asked for are left by the size filter, the
    selection fails and returns no short list.  The failure is the
    [IndexError] that [top[k]] raises for the first missing target; a
    selection that succeeds has exactly [n] targets.  In particular asking
    for three, as [main] does, with two clusters left fails. *)
Theorem select_top_insufficient n clusters :
  ((length (filter plausible clusters) < n)%nat ->
   select_top n clusters = IndexError) /\
  (forall targets,
      select_top n clusters = Selected targets ->
      length targets = n /\ (n <= length (filter plausible clusters))%nat) /\
  (length (filter plausible clusters) = 2%nat ->
   main_targets clusters = IndexError).
Proof.
  assert (S : (length (filter plausible clusters) < n)%nat ->
              select_top n clusters = IndexError).
  { intros H. unfold select_top. apply index_from_short; [lia|].
    rewrite top_length. lia. }
  split; [exact S|]. split.
  - intros targets H. unfold select_top in H.
    apply index_from_selected in H; [|lia]. rewrite top_length in H. lia.
  - intros H. unfold main_targets, select_top. apply index_from_short; [lia|].
    rewrite top_length. lia.
Qed.

(** Three clusters of which one is too small to pass the filter. *)
Lemma select_top_insufficient_witness :
  main_targets [mkBBox 0 0 100 70; mkBBox 0 0 10 10; mkBBox 500 0 600 90]
  = IndexError.
Proof.
  apply (proj2 (proj2 (select_top_insufficient 3
    [mkBBox 0 0 100 70; mkBBox 0 0 10 10; mkBBox 500 0 600 90]))).
  reflexivity.
Defined.

(** ** The path interpreter *)

Lemma run_continue st t rest st' toks' :
  loop_body st t rest = Continue st' toks' -> run st (t :: rest) = run st' toks'.
Proof.
  intros H. remember (t :: rest) as toks eqn:T.
  funelim (run st toks); congruence.
Qed.

Lemma run_break st t rest st' :
  loop_body st t rest = Break st' -> run st (t :: rest) = Returned (acc st').
Proof.
  intros H. remember (t :: rest) as toks eqn:T.
  funelim (run st toks); congruence.
Qed.

Lemma run_raise st t rest :
  loop_body st t rest = Raise -> run st (t :: rest) = ValueError.
Proof.
  intros H. remember (t :: rest) as toks eqn:T.
  funelim (run st toks); congruence.
Qed.

Open Scope string_scope.

(** How many numbers one group of the command [c] takes; [None] for [Z], [z]
    and anything else that has no branch of its own. *)
Definition arity (c : ascii) : option nat :=
  if in_str c "Mm" then Some 2%nat
  else if in_str c "Ll" then Some 2%nat
  else if in_str c "Hh" then Some 1%nat
  else if in_str c "Vv" then Some 1%nat
  else if in_str c "Cc" then Some 6%nat
  else if in_str c "Ss" then Some 4%nat
  else if in_str c "Qq" then Some 4%nat
  else if in_str c "Tt" then Some 2%nat
  else if in_str c "Aa" then Some 7%nat
  else None.

(** The command under which the numbers after a complete group of [c] are
    read. *)
Definition implicit (c : ascii) : ascii :=
  if Ascii.eqb c "M" then "L"%char
  else if Ascii.eqb c "m" then "l"%char
  else c.

Lemma in_str_pair c a b :
  in_str c (String a (String b EmptyString)) = true -> c = a \/ c = b.
Proof.
  simpl. rewrite orb_false_r, orb_true_iff, !Ascii.eqb_eq. tauto.
Qed.

Lemma not_in_str_pair c a b :
  in_str c (String a (String b EmptyString)) = false -> c <> a /\ c <> b.
Proof.
  simpl. rewrite orb_false_r, orb_false_iff, !Ascii.eqb_neq. tauto.
Qed.

(** The branch taken on a number under the command [c], as a table: the
    count to read and the update. *)
Lemma loop_body_number st c v :
  cmd st = Some c ->
  exists update : list Q -> option state,
    (forall rest,
        loop_body st (Number v) rest =
        match arity c with
        | None => Continue st rest
        | Some n => numbers_then st (Number v :: rest) n update
        end) /\
    (forall n nums, arity c = Some n -> length nums = n ->
        exists st', update nums = Some st' /\ cmd st' = Some (implicit c)) /\
    (forall n nums, arity c = Some n -> (length nums < n)%nat ->
        update nums = None).
Proof.
  intros C. unfold loop_body, arity. rewrite C.
  destruct (in_str c "Mm") eqn:EM.
  { exists (move c st). split; [reflexivity|]. split.
    - intros n nums [= <-] L.
      destruct nums as [|nx [|ny [|? ?]]]; try discriminate.
      eexists; split; [reflexivity|]. simpl. unfold implicit.
      apply in_str_pair in EM. destruct EM as [->| ->]; reflexivity.
    - intros n nums [= <-] L.
      destruct nums as [|nx [|ny [|? ?]]]; simpl in *; auto; lia. }
  assert (I : implicit c = c).
  { apply not_in_str_pair in EM. destruct EM as (N1 & N2).
    apply Ascii.eqb_neq in N1, N2. unfold implicit. rewrite N1, N2.
    reflexivity. }
  rewrite I.
  repeat match goal with
  | |- context [if in_str c ?s then _ else _] => destruct (in_str c s)
  end;
  try (eexists; split; [reflexivity|]; split;
       intros n nums [= <-] L;
       do 8 (try destruct nums as [|? nums]); simpl in L;
       try discriminate; try lia; try reflexivity;
       eexists; split; [reflexivity | exact C]).
  exists (fun _ => None). split; [reflexivity|]. split; discriminate.
Qed.

Lemma arity_letters c n :
  arity c = Some n ->
  (1 <= n)%nat /\ in_str c "Zz" = false /\ in_str (implicit c) "Zz" = false.
Proof.
  unfold arity.
  repeat match goal with
  | |- context [if in_str c ?s then _ else _] =>
      let E := fresh "E" in
      destruct (in_str c s) eqn:E;
      [apply in_str_pair in E; destruct E as [->| ->]; intros [= <-];
       repeat split; solve [lia | reflexivity] |]
  end.
  discriminate.
Qed.

Close Scope string_scope.

Lemma take_numbers_exact nums rest :
  take_numbers (map Number nums ++ rest) (length nums) = Some (nums, rest).
Proof.
  induction nums as [|v nums IH]; simpl; [reflexivity|].
  rewrite IH. reflexivity.
Qed.

Lemma take_numbers_end nums n :
  (length nums <= n)%nat -> take_numbers (map Number nums) n = Some (nums, []).
Proof.
  revert n; induction nums as [|v nums IH]; intros n L; simpl.
  - destruct n; reflexivity.
  - destruct n as [|n]; simpl in *; [lia|]. rewrite IH; [reflexivity | lia].
Qed.

(** Reading into a list that goes on with a command letter: [float] raises
    when the numbers run out before the letter. *)
Lemma take_numbers_app toks c rest n :
  take_numbers (toks ++ Letter c :: rest) n =
  match take_numbers toks n with
  | None => None
  | Some (nums, toks') =>
      if (length nums <? n)%nat then None
      else Some (nums, toks' ++ Letter c :: rest)
  end.
Proof.
  revert toks; induction n as [|n IH]; intros toks; simpl; [reflexivity|].
  destruct toks as [|[d|v] toks]; simpl; try reflexivity.
  rewrite IH. destruct (take_numbers toks n) as [[nums toks']|]; auto.
  cbn [length].
  destruct (Nat.ltb_spec (length nums) n),
    (Nat.ltb_spec (S (length nums)) (S n)); try reflexivity; lia.
Qed.

Lemma take_numbers_letter nums n c rest :
  (length nums < n)%nat ->
  take_numbers (map Number nums ++ Letter c :: rest) n = None.
Proof.
  intros L. rewrite take_numbers_app, take_numbers_end by lia.
  apply Nat.ltb_lt in L. rewrite L. reflexivity.
Qed.

(** After a complete group the interpreter is where an explicit letter of
    the implicit command would put it. *)
Lemma run_group st c n args rest :
  arity c = Some n -> length args = n ->
  run st (Letter c :: map Number args ++ rest) =
  run st (Letter c :: map Number args ++ Letter (implicit c) :: rest).
Proof.
  intros Ar L. destruct (arity_letters c n Ar) as (P & Z & Z').
  set (st1 := mkState (x st) (y st) (start_x st) (start_y st) (acc st) (Some c)).
  assert (B : forall X, loop_body st (Letter c) X = Continue st1 X).
  { intros X. unfold loop_body. rewrite Z. reflexivity. }
  rewrite !(run_continue _ _ _ _ _ (B _)).
  destruct args as [|v args]; [simpl in L; lia|].
  destruct (loop_body_number st1 c v eq_refl) as (g & G1 & G2 & _).
  destruct (G2 n (v :: args) Ar L) as (st' & Gs & Cs).
  assert (N : forall X, loop_body st1 (Number v) (map Number args ++ X)
                        = Continue st' X).
  { intros X. rewrite G1, Ar. unfold numbers_then.
    change (Number v :: map Number args ++ X)
      with (map Number (v :: args) ++ X).
    rewrite <- L, take_numbers_exact, Gs. reflexivity. }
  simpl map. simpl app. rewrite !(run_continue _ _ _ _ _ (N _)).
  symmetry. apply run_continue. unfold loop_body. rewrite Z'.
  destruct st'; simpl in *. rewrite Cs. reflexivity.
Qed.

(** What one iteration does in front of a command letter further on does
    not depend on what comes after that letter. *)
Lemma loop_body_prefix st t pre c X Y :
  (exists st' pre', (length pre' <= length pre)%nat /\
     loop_body st t (pre ++ Letter c :: X) = Continue st' (pre' ++ Letter c :: X) /\
     loop_body st t (pre ++ Letter c :: Y) = Continue st' (pre' ++ Letter c :: Y)) \/
  (exists st',
     loop_body st t (pre ++ Letter c :: X) = Break st' /\
     loop_body st t (pre ++ Letter c :: Y) = Break st') \/
  (loop_body st t (pre ++ Letter c :: X) = Raise /\
   loop_body st t (pre ++ Letter c :: Y) = Raise).
Proof.
  destruct t as [d|v].
  - left. unfold loop_body. destruct (in_str d "Zz"%string); eauto 6.
  - destruct (cmd st) as [c0|] eqn:C.
    2:{ right; left. exists st. unfold loop_body. rewrite C. auto. }
    destruct (loop_body_number st c0 v C) as (g & G1 & _ & G3).
    rewrite !G1. destruct (arity c0) as [n|] eqn:Ar; [|left; eauto 6].
    unfold numbers_then.
    change (Number v :: pre ++ Letter c :: X)
      with ((Number v :: pre) ++ Letter c :: X).
    change (Number v :: pre ++ Letter c :: Y)
      with ((Number v :: pre) ++ Letter c :: Y).
    rewrite !take_numbers_app.
    destruct (take_numbers (Number v :: pre) n) as [[nums pre']|] eqn:T; auto.
    destruct (Nat.ltb_spec (length nums) n) as [Lt|Ge]; auto.
    destruct (g nums) as [st'|] eqn:Gs; [|right; left; eauto].
    left. exists st', pre'. repeat split; auto.
    apply take_numbers_length in T. simpl in T.
    destruct (arity_letters c0 n Ar) as (P & _). lia.
Qed.

Lemma run_prefix c X Y :
  (forall st, run st (Letter c :: X) = run st (Letter c :: Y)) ->
  forall pre st,
    run st (pre ++ Letter c :: X) = run st (pre ++ Letter c :: Y).
Proof.
  intros H pre. remember (length pre) as k eqn:K. revert pre K.
  induction k as [k IH] using lt_wf_ind. intros pre K st.
  destruct pre as [|t pre]; [apply H|]. simpl.
  destruct (loop_body_prefix st t pre c X Y)
    as [(st' & pre' & L & E1 & E2)|[(st' & E1 & E2)|(E1 & E2)]].
  - rewrite (run_continue _ _ _ _ _ E1), (run_continue _ _ _ _ _ E2).
    apply (IH (length pre')); auto. simpl in K. lia.
  - rewrite (run_break _ _ _ _ E1), (run_break _ _ _ _ E2). reflexivity.
  - rewrite (run_raise _ _ _ E1), (run_raise _ _ _ E2). reflexivity.
Qed.

(** Too few numbers before the next command letter: [float] raises on the
    letter.  Too few numbers at the end of the path: the loop breaks and the
    box so far is returned. *)
Lemma run_short_group st c n v nums :
  cmd st = Some c -> arity c = Some n -> (S (length nums) < n)%nat ->
  (forall d rest,
      run st (Number v :: map Number nums ++ Letter d :: rest) = ValueError) /\
  run st (Number v :: map Number nums) = Returned (acc st).
Proof.
  intros C Ar L. destruct (loop_body_number st c v C) as (g & G1 & _ & G3).
  split.
  - intros d rest. apply run_raise. rewrite G1, Ar. unfold numbers_then.
    change (Number v :: map Number nums ++ Letter d :: rest)
      with (map Number (v :: nums) ++ Letter d :: rest).
    rewrite take_numbers_letter; [reflexivity | simpl; lia].
  - apply run_break. rewrite G1, Ar. unfold numbers_then.
    change (Number v :: map Number nums) with (map Number (v :: nums)).
    rewrite take_numbers_end by (simpl; lia).
    rewrite (G3 n); [reflexivity | assumption | simpl; lia].
Qed.

Open Scope string_scope.

(** C5: the interpreter does not always fail soft.  After [M 10 20] the
    command [L] gets one number and then the letter [Z]: [float("Z")] raises
    [ValueError] out of [bbox_from_path_d], where the claim has the box of
    the point (10, 20) returned.  Only when the numbers run out at the end of
    the path does the loop break and return that box. *)
Theorem bbox_from_path_d_raises :
  bbox_from_path_d "M 10 20 L 5 Z" = ValueError /\
  bbox_from_path_d "M 10 20 L 5" = Returned (Some (mkBBox 10 20 10 20)).
Proof. split; reflexivity. Qed.

(** C6: implicit repeat.  Wherever a command letter [c] is followed by the
    numbers of one complete group, the interpreter goes on exactly as if the
    letter of the implicit command stood after the group: [c] itself, except
    [L] after [M] and [l] after [m].  That a moveto is not repeated shows
    after a closepath, which returns to the first point of the path and not
    to the second pair. *)
Theorem implicit_repeat pre c n args rest :
  arity c = Some n -> length args = n ->
  run initial (pre ++ Letter c :: map Number args ++ rest) =
  run initial (pre ++ Letter c :: map Number args
                   ++ Letter (implicit c) :: rest) /\
  implicit "M" = "L"%char /\ implicit "m" = "l"%char /\
  (in_str c "Mm" = false -> implicit c = c) /\
  bbox_from_path_d "M 0 0 5 5 Z l 1 1" = bbox_from_path_d "M 0 0 L 5 5 Z l 1 1" /\
  bbox_from_path_d "M 0 0 5 5 Z l 1 1" <> bbox_from_path_d "M 0 0 M 5 5 Z l 1 1".
Proof.
  intros Ar L. split; [|split; [|split; [|split; [|split]]]].
  - apply run_prefix. intros st. apply (run_group st c n); assumption.
  - reflexivity.
  - reflexivity.
  - intros E. apply not_in_str_pair in E. destruct E as (N1 & N2).
    apply Ascii.eqb_neq in N1, N2. unfold implicit. rewrite N1, N2.
    reflexivity.
  - reflexivity.
  - vm_compute. discriminate.
Qed.

(** The relative curve of two groups [c 1 1 2 2 3 3 1 1 2 2 3 3] after
    [M 0 0], read with and without the second letter. *)
Lemma implicit_repeat_witness :
  run initial (tokenize "M 0 0 c 1 1 2 2 3 3 1 1 2 2 3 3") =
  run initial (tokenize "M 0 0 c 1 1 2 2 3 3 c 1 1 2 2 3 3").
Proof.
  exact (proj1 (implicit_repeat [Letter "M"; Number 0; Number 0] "c" 6
           [1; 1; 2; 2; 3; 3]
           [Number 1; Number 1; Number 2; Number 2; Number 3; Number 3]
           eq_refl eq_refl)).
Defined.

Close Scope string_scope.

(** * Further properties of the script *)

(** ** The box operations *)

(** X1: [union] is the smallest box around two boxes: both lie inside it, and
    it lies inside every box that both lie inside. *)
Theorem union_is_smallest a b :
  inside a (union a b) /\ inside b (union a b) /\
  forall c, inside a c -> inside b c -> inside (union a b) c.
Proof.
  split; [apply union_l|]. split; [apply union_r|].
  intros c. apply union_lub.
Qed.

Lemma union_is_smallest_witness :
  inside (union (mkBBox 0 0 100 50) (mkBBox 0 40 90 90)) (mkBBox 0 0 100 90).
Proof.
  apply (proj2 (proj2 (union_is_smallest (mkBBox 0 0 100 50)
                                         (mkBBox 0 40 90 90))));
    unfold inside; simpl; repeat split; discriminate.
Defined.

(** X2: up to the value of the coordinates [union] is commutative and
    associative, and the union of a box with itself is that box. *)
Theorem union_algebra a b c :
  bbox_eq (union a b) (union b a) /\
  bbox_eq (union (union a b) c) (union a (union b c)) /\
  union a a = a.
Proof.
  split; [|split].
  - unfold bbox_eq, union; simpl.
    repeat split; solve [apply Q.min_comm | apply Q.max_comm].
  - unfold bbox_eq, union; simpl.
    repeat split; symmetry; solve [apply Q.min_assoc | apply Q.max_assoc].
  - destruct a as [x0 y0 x1 y1]. unfold union; simpl.
    unfold Qmin, Qmax, GenericMinMax.gmin, GenericMinMax.gmax.
    destruct (x0 ?= x0), (y0 ?= y0), (x1 ?= x1), (y1 ?= y1); reflexivity.
Qed.

(** X3: [overlaps] is symmetric in the two boxes, and a box with
    [minx <= maxx] and [miny <= maxy] overlaps itself under every
    non-negative padding. *)
Theorem overlaps_symmetric_reflexive a b pad :
  overlaps a b pad = overlaps b a pad /\
  (well_formed a -> 0 <= pad -> overlaps a a pad = true).
Proof.
  split; [apply overlaps_sym|].
  unfold well_formed. intros (?&?) P. apply overlaps_true.
  repeat split; lra.
Qed.

Lemma overlaps_symmetric_reflexive_witness :
  overlaps (mkBBox 0 0 100 50) (mkBBox 0 0 100 50) 18 = true.
Proof.
  apply (proj2 (overlaps_symmetric_reflexive (mkBBox 0 0 100 50)
                                             (mkBBox 0 0 100 50) 18));
    [unfold well_formed; simpl; split|]; discriminate.
Defined.

(** X4: an overlap is kept when the padding grows and when either box is
    replaced by a box around it. *)
Theorem overlaps_monotone a b a' b' pad pad' :
  overlaps a b pad = true ->
  pad <= pad' -> inside a a' -> inside b b' ->
  overlaps a' b' pad' = true.
Proof.
  rewrite !overlaps_true. unfold inside.
  intros (?&?&?&?) P (?&?&?&?) (?&?&?&?). repeat split; lra.
Qed.

Lemma overlaps_monotone_witness :
  overlaps (mkBBox 0 0 100 90) (mkBBox 90 0 200 60) 22 = true.
Proof.
  apply (overlaps_monotone (mkBBox 0 0 100 50) (mkBBox 100 0 200 60)
                           (mkBBox 0 0 100 90) (mkBBox 90 0 200 60) 0 22);
    [reflexivity | discriminate | |];
    unfold inside; simpl; repeat split; discriminate.
Defined.

(** ** More about the clusters *)

Section ClusteringSizes.

Context {A : Type}.
Variable near : A -> A -> bool.
Variable join : A -> A -> A.

Lemma greedy_fold_length bboxes clusters :
  (length (fold_left (greedy_step near join) bboxes clusters)
   <= length clusters + length bboxes)%nat.
Proof.
  revert clusters; induction bboxes as [|b rest IH]; intros clusters; simpl.
  - lia.
  - specialize (IH (greedy_step near join clusters b)).
    assert (length (greedy_step near join clusters b) <= S (length clusters))%nat.
    { unfold greedy_step. destruct (merge_first near join b clusters) eqn:E.
      - apply merge_first_length in E. lia.
      - rewrite length_app. simpl. lia. }
    lia.
Qed.

Lemma stabilize_length clusters :
  (length (stabilize near join clusters) <= length clusters)%nat.
Proof.
  funelim (stabilize near join clusters).
  - pose proof (merge_pass_decreases _ _ _ _ E). lia.
  - destruct (merge_pass_unchanged _ _ _ _ E) as (-> & _). lia.
Qed.

Lemma cluster_length bboxes :
  (length (cluster near join bboxes) <= length bboxes)%nat.
Proof.
  unfold cluster, greedy.
  pose proof (stabilize_length (fold_left (greedy_step near join) bboxes [])).
  pose proof (greedy_fold_length bboxes []). simpl in *. lia.
Qed.

(** Boxes that are pairwise apart go through both phases untouched. *)
Lemma greedy_fold_apart bboxes clusters :
  ForallOrdPairs (apart near) (clusters ++ bboxes) ->
  fold_left (greedy_step near join) bboxes clusters = clusters ++ bboxes.
Proof.
  revert clusters; induction bboxes as [|b rest IH]; intros clusters F; simpl.
  - rewrite app_nil_r. reflexivity.
  - assert (N : merge_first near join b clusters = None).
    { apply merge_first_None. apply Forall_forall. intros c Hc.
      apply in_split in Hc. destruct Hc as (l1 & l2 & ->).
      rewrite <- !app_assoc in F. simpl in F.
      clear IH. induction l1 as [|d l1 IHl]; simpl in F.
      - inversion F; subst.
        match goal with H : Forall _ _ |- _ => rewrite Forall_forall in H;
          apply H end.
        apply in_or_app. right. left. reflexivity.
      - inversion F; subst. auto. }
    unfold greedy_step at 2. rewrite N.
    rewrite IH; rewrite <- app_assoc; [reflexivity | exact F].
Qed.

Lemma pass_fold_apart clusters out :
  ForallOrdPairs (apart near) (out ++ clusters) ->
  fold_left (pass_step near join) clusters (out, false)
  = (out ++ clusters, false).
Proof.
  revert out; induction clusters as [|b rest IH]; intros out F; simpl.
  - rewrite app_nil_r. reflexivity.
  - assert (N : merge_first near join b out = None).
    { apply merge_first_None. apply Forall_forall. intros c Hc.
      apply in_split in Hc. destruct Hc as (l1 & l2 & ->).
      rewrite <- !app_assoc in F. simpl in F.
      clear IH. induction l1 as [|d l1 IHl]; simpl in F.
      - inversion F; subst.
        match goal with H : Forall _ _ |- _ => rewrite Forall_forall in H;
          apply H end.
        apply in_or_app. right. left. reflexivity.
      - inversion F; subst. auto. }
    unfold pass_step at 2. simpl. rewrite N.
    rewrite IH; rewrite <- app_assoc; [reflexivity | exact F].
Qed.

Lemma cluster_of_apart bboxes :
  ForallOrdPairs (apart near) bboxes -> cluster near join bboxes = bboxes.
Proof.
  intros F. unfold cluster, greedy.
  rewrite (greedy_fold_apart bboxes []) by exact F. simpl.
  apply stabilize_stable. apply (pass_fold_apart bboxes []). exact F.
Qed.

End ClusteringSizes.

Lemma cluster_bboxes_covers bboxes proximity b :
  In b bboxes ->
  exists o, In o (cluster_bboxes bboxes proximity) /\ inside b o.
Proof.
  apply (cluster_covers (fun c b => overlaps c b proximity) union inside
           inside_refl inside_trans union_l union_r).
Qed.

(** X5: clustering never returns more boxes than it was given, returns no
    box exactly for the empty input, and returns a single box as it is. *)
Theorem cluster_bboxes_size bboxes proximity :
  (length (cluster_bboxes bboxes proximity) <= length bboxes)%nat /\
  (cluster_bboxes bboxes proximity = [] <-> bboxes = []) /\
  (forall b, cluster_bboxes [b] proximity = [b]).
Proof.
  split; [apply cluster_length|]. split.
  - split.
    + intros E. destruct bboxes as [|b rest]; auto.
      destruct (cluster_bboxes_covers (b :: rest) proximity b) as (o & Ho & _);
        [left; reflexivity|].
      rewrite E in Ho. contradiction.
    + intros ->. reflexivity.
  - intros b. apply cluster_of_apart. repeat constructor.
Qed.

(** X6: every input box lies inside one of the boxes that come out. *)
Theorem cluster_bboxes_keeps_every_box bboxes proximity b :
  In b bboxes ->
  exists o, In o (cluster_bboxes bboxes proximity) /\ inside b o.
Proof. apply cluster_bboxes_covers. Qed.

Lemma cluster_bboxes_keeps_every_box_witness :
  exists o,
    In o (cluster_bboxes
            [mkBBox 0 0 100 50; mkBBox 0 40 90 90; mkBBox 500 0 600 60] 10) /\
    inside (mkBBox 0 40 90 90) o.
Proof.
  apply cluster_bboxes_keeps_every_box. right; left; reflexivity.
Defined.

(** X7: boxes that are already pairwise apart come out as they went in, in
    the same order; so clustering the output of a clustering again changes
    nothing. *)
Theorem cluster_bboxes_idempotent bboxes proximity :
  (ForallOrdPairs (fun a b => overlaps a b proximity = false) bboxes ->
   cluster_bboxes bboxes proximity = bboxes) /\
  cluster_bboxes (cluster_bboxes bboxes proximity) proximity
  = cluster_bboxes bboxes proximity.
Proof.
  split.
  - apply (cluster_of_apart (fun c b => overlaps c b proximity) union).
  - apply (cluster_of_apart (fun c b => overlaps c b proximity) union).
    apply cluster_apart.
Qed.

Lemma cluster_bboxes_idempotent_witness :
  cluster_bboxes [mkBBox 0 0 100 90; mkBBox 500 0 600 60] 10
  = [mkBBox 0 0 100 90; mkBBox 500 0 600 60].
Proof.
  apply (proj1 (cluster_bboxes_idempotent
                  [mkBBox 0 0 100 90; mkBBox 500 0 600 60] 10)).
  repeat constructor.
Defined.

Lemma union_well_formed c b :
  well_formed c -> well_formed b -> well_formed (union c b).
Proof.
  unfold well_formed, union; simpl. intros (?&?) (?&?).
  pose proof (Q.le_min_l (minx c) (minx b)).
  pose proof (Q.le_max_l (maxx c) (maxx b)).
  pose proof (Q.le_min_l (miny c) (miny b)).
  pose proof (Q.le_max_l (maxy c) (maxy b)).
  split; lra.
Qed.

(** X8: when every input box has [minx <= maxx] and [miny <= maxy], so has
    every box that comes out. *)
Theorem cluster_bboxes_well_formed bboxes proximity :
  Forall well_formed bboxes ->
  Forall well_formed (cluster_bboxes bboxes proximity).
Proof.
  apply cluster_closed. intros c b _. apply union_well_formed.
Qed.

Lemma cluster_bboxes_well_formed_witness :
  Forall well_formed
    (cluster_bboxes [mkBBox 0 0 100 50; mkBBox 0 40 90 90] 10).
Proof.
  apply cluster_bboxes_well_formed.
  repeat constructor; discriminate.
Defined.

Lemma Qmin_either x y : Qmin x y = x \/ Qmin x y = y.
Proof.
  unfold Qmin, GenericMinMax.gmin. destruct (x ?= y); auto.
Qed.

Lemma Qmax_either x y : Qmax x y = x \/ Qmax x y = y.
Proof.
  unfold Qmax, GenericMinMax.gmax. destruct (x ?= y); auto.
Qed.

(** Each side of the box is a side of one of the given boxes. *)
Definition sides_from (bboxes : list BBox) (o : BBox) : Prop :=
  (exists a, In a bboxes /\ minx o = minx a) /\
  (exists a, In a bboxes /\ miny o = miny a) /\
  (exists a, In a bboxes /\ maxx o = maxx a) /\
  (exists a, In a bboxes /\ maxy o = maxy a).

(** X9: clustering makes up no coordinate: each of the four sides of every
    output box is the corresponding side of some input box. *)
Theorem cluster_bboxes_sides bboxes proximity o :
  In o (cluster_bboxes bboxes proximity) -> sides_from bboxes o.
Proof.
  revert o. apply Forall_forall. apply cluster_closed.
  - intros c b _ (C1 & C2 & C3 & C4) (B1 & B2 & B3 & B4).
    unfold sides_from, union; simpl. repeat split.
    + destruct (Qmin_either (minx c) (minx b)) as [-> | ->]; assumption.
    + destruct (Qmin_either (miny c) (miny b)) as [-> | ->]; assumption.
    + destruct (Qmax_either (maxx c) (maxx b)) as [-> | ->]; assumption.
    + destruct (Qmax_either (maxy c) (maxy b)) as [-> | ->]; assumption.
  - apply Forall_forall. intros a Ha. repeat split; exists a; auto.
Qed.

Lemma cluster_bboxes_sides_witness :
  sides_from [mkBBox 0 0 100 50; mkBBox 0 40 90 90] (mkBBox 0 0 100 90).
Proof.
  apply (cluster_bboxes_sides [mkBBox 0 0 100 50; mkBBox 0 40 90 90] 10).
  left; reflexivity.
Defined.

(** ** More about the path interpreter *)

(** From one accumulated box to a later one: the box is still there and has
    not shrunk, and it is well formed if it was (or if there was none). *)
Definition grows (a a' : option BBox) : Prop :=
  (forall b, a = Some b -> exists b', a' = Some b' /\ inside b b') /\
  ((forall b, a = Some b -> well_formed b) ->
   forall b', a' = Some b' -> well_formed b').

Lemma grows_refl a : grows a a.
Proof.
  split.
  - intros b ->. exists b. split; auto using inside_refl.
  - auto.
Qed.

Lemma grows_trans a b c : grows a b -> grows b c -> grows a c.
Proof.
  intros (G1 & W1) (G2 & W2). split.
  - intros x Hx. destruct (G1 x Hx) as (y & Hy & I1).
    destruct (G2 y Hy) as (z & Hz & I2). exists z. split; auto.
    eapply inside_trans; eauto.
  - auto.
Qed.

Lemma grows_add_point a px py : grows a (add_point px py a).
Proof.
  split.
  - intros b ->. simpl. eexists. split; [reflexivity|].
    unfold inside; simpl.
    repeat split; solve [apply Q.le_min_l | apply Q.le_max_l].
  - intros _ b'. destruct a as [b|]; simpl; intros [= <-];
      unfold well_formed; simpl.
    + pose proof (Q.le_min_r (minx b) px). pose proof (Q.le_max_r (maxx b) px).
      pose proof (Q.le_min_r (miny b) py). pose proof (Q.le_max_r (maxy b) py).
      split; lra.
    + split; apply Qle_refl.
Qed.

Lemma grows_line_to st nx ny : grows (acc st) (acc (line_to st nx ny)).
Proof. apply grows_add_point. Qed.

Lemma grows_visit st px py : grows (acc st) (acc (visit st px py)).
Proof. apply grows_add_point. Qed.

Create HintDb grows.
#[local] Hint Resolve grows_refl grows_add_point grows_line_to grows_visit
  : grows.

Lemma numbers_then_grows st toks n update :
  (forall nums st', update nums = Some st' -> grows (acc st) (acc st')) ->
  match numbers_then st toks n update with
  | Continue st' _ => grows (acc st) (acc st')
  | Break st' => st' = st
  | Raise => True
  end.
Proof.
  intros U. unfold numbers_then.
  destruct (take_numbers toks n) as [[nums toks']|]; auto.
  destruct (update nums) as [st'|] eqn:E; eauto.
Qed.

(** One iteration never loses a point: it goes on with a box that has not
    shrunk, or breaks in the state it started from. *)
Lemma loop_body_grows st t rest :
  match loop_body st t rest with
  | Continue st' _ => grows (acc st) (acc st')
  | Break st' => st' = st
  | Raise => True
  end.
Proof.
  unfold loop_body. destruct t as [c|v].
  - destruct (in_str c "Zz"); simpl; auto with grows.
  - destruct (cmd st) as [c|]; auto.
    repeat match goal with
    | |- context [if in_str c ?s then _ else _] => destruct (in_str c s)
    end;
    try (apply numbers_then_grows; intros nums st' E;
         do 8 (try destruct nums as [|? nums]); try discriminate;
         injection E as <-; simpl).
    all: auto with grows.
    all: try (eapply grows_trans; [|apply grows_add_point]; simpl).
    all: try (eapply grows_trans; [|apply grows_add_point]; simpl).
    all: auto with grows.
Qed.

Lemma run_grows st toks r :
  run st toks = Returned r -> grows (acc st) r.
Proof.
  funelim (run st toks); intros R.
  - injection R as <-. apply grows_refl.
  - pose proof (loop_body_grows st t rest) as G. rewrite E in G.
    eapply grows_trans; eauto.
  - pose proof (loop_body_grows st t rest) as G. rewrite E in G. subst.
    injection R as <-. apply grows_refl.
  - discriminate.
Qed.

(** X10: every box [bbox_from_path_d] returns has [minx <= maxx] and
    [miny <= maxy]. *)
Theorem bbox_from_path_d_well_formed d b :
  bbox_from_path_d d = Returned (Some b) -> well_formed b.
Proof.
  unfold bbox_from_path_d. destruct (tokenize d) as [|t toks]; [discriminate|].
  intros R. apply run_grows in R. destruct R as (_ & W).
  apply W; [discriminate | reflexivity].
Qed.

Lemma bbox_from_path_d_well_formed_witness :
  well_formed (mkBBox 0 0 100 50).
Proof.
  apply (bbox_from_path_d_well_formed "M0 0 L100 0 L100 50 L0 50 Z").
  reflexivity.
Defined.

(** X11: the interpreter never loses a point.  From a state that already
    holds a box, whatever tokens follow, a run that returns does return a
    box, and the box held before lies inside it. *)
Theorem run_keeps_the_box st toks r b :
  run st toks = Returned r -> acc st = Some b ->
  exists b', r = Some b' /\ inside b b'.
Proof.
  intros R A. apply run_grows in R. destruct R as (G & _). auto.
Qed.

Lemma run_keeps_the_box_witness :
  exists b', Some (mkBBox 0 0 7 9) = Some b' /\ inside (mkBBox 0 0 5 5) b'.
Proof.
  apply (run_keeps_the_box
           (mkState 5 5 0 0 (Some (mkBBox 0 0 5 5)) (Some "L"%char))
           [Number 7; Number 9]);
    reflexivity.
Defined.

(** *** Polylines *)

(** The tokens of one more corner of a polyline: its two coordinates, after
    an [L] when the letter is written out. *)
Definition corner_tokens (corner : bool * (Q * Q)) : list token :=
  (if fst corner then [Letter "L"] else [])
  ++ [Number (fst (snd corner)); Number (snd (snd corner))].

(** [M x0 y0] followed by corners. *)
Definition polyline_tokens (p0 : Q * Q) (corners : list (bool * (Q * Q)))
  : list token :=
  Letter "M" :: Number (fst p0) :: Number (snd p0)
  :: flat_map corner_tokens corners.

(** The box around a list of points, folded with [add_point]. *)
Definition box_of_points (a : option BBox) (pts : list (Q * Q)) : option BBox :=
  fold_left (fun a p => add_point (fst p) (snd p) a) pts a.

Definition after_corners (st : state) (pts : list (Q * Q)) : state :=
  fold_left (fun st p => line_to st (fst p) (snd p)) pts st.

Lemma after_corners_fields st pts :
  acc (after_corners st pts) = box_of_points (acc st) pts /\
  cmd (after_corners st pts) = cmd st /\
  start_x (after_corners st pts) = start_x st /\
  start_y (after_corners st pts) = start_y st.
Proof.
  revert st; induction pts as [|p pts IH]; intros st; simpl; auto.
  destruct (IH (line_to st (fst p) (snd p))) as (-> & -> & -> & ->).
  auto.
Qed.

Lemma run_corners st corners rest :
  cmd st = Some "L"%char ->
  run st (flat_map corner_tokens corners ++ rest)
  = run (after_corners st (map snd corners)) rest.
Proof.
  revert st; induction corners as [|[e [px py]] corners IH]; intros st C;
    simpl; [reflexivity|].
  assert (N : forall X, run st (Number px :: Number py :: X)
                        = run (line_to st px py) X).
  { intros X. apply run_continue. unfold loop_body. rewrite C. reflexivity. }
  unfold corner_tokens at 1. simpl fst. simpl snd. rewrite <- app_assoc.
  destruct e; simpl app.
  - assert (L : forall X, run st (Letter "L" :: X) = run st X).
    { intros X. apply run_continue. unfold loop_body. simpl.
      destruct st; simpl in *. rewrite C. reflexivity. }
    rewrite L, N. apply IH. exact C.
  - rewrite N. apply IH. exact C.
Qed.

Lemma box_of_points_grows a pts : grows a (box_of_points a pts).
Proof.
  revert a; induction pts as [|p pts IH]; intros a; simpl.
  - apply grows_refl.
  - eapply grows_trans; [apply grows_add_point | apply IH].
Qed.

(** Adding a point that lies in the box leaves the box as it is. *)
Lemma add_point_inside b px py :
  minx b <= px <= maxx b -> miny b <= py <= maxy b ->
  add_point px py (Some b) = Some b.
Proof.
  intros (X0 & X1) (Y0 & Y1). destruct b as [x0 y0 x1 y1]; simpl in *.
  unfold Qmin, Qmax, GenericMinMax.gmin, GenericMinMax.gmax.
  destruct (x0 ?= px) eqn:E0; try (apply Qgt_alt in E0; lra);
  destruct (y0 ?= py) eqn:E1; try (apply Qgt_alt in E1; lra);
  destruct (x1 ?= px) eqn:E2; try (apply Qlt_alt in E2; lra);
  destruct (y1 ?= py) eqn:E3; try (apply Qlt_alt in E3; lra);
  reflexivity.
Qed.

(** The largest float.  [float] reads a number beyond it as an infinity,
    which the rationals of this model do not have; a number within it is
    read as a finite float. *)
Definition max_float : Q := inject_Z ((2 ^ 53 - 1) * 2 ^ 971).

Definition in_float_range (p : Q * Q) : Prop :=
  Qabs (fst p) <= max_float /\ Qabs (snd p) <= max_float.

(** The point [p] lies in the box [b]. *)
Definition contains (b : BBox) (p : Q * Q) : Prop :=
  minx b <= fst p <= maxx b /\ miny b <= snd p <= maxy b.

(** Folding points into a box gives a box that holds them all, and the
    smallest one that does and holds the box folded into. *)
Lemma box_of_points_least b0 pts :
  exists b,
    box_of_points (Some b0) pts = Some b /\
    inside b0 b /\
    (forall p, In p pts -> contains b p) /\
    (forall c, inside b0 c -> (forall p, In p pts -> contains c p) ->
               inside b c).
Proof.
  revert b0. induction pts as [|[px py] pts IH]; intros b0.
  - exists b0. split; [reflexivity|]. split; [apply inside_refl|].
    split; [intros p []|intros c Ic _; exact Ic].
  - cbn [box_of_points fold_left fst snd add_point].
    set (b1 := mkBBox (Qmin (minx b0) px) (Qmin (miny b0) py)
                      (Qmax (maxx b0) px) (Qmax (maxy b0) py)).
    destruct (IH b1) as (b & E & I1 & C & L). exists b.
    assert (I0 : inside b0 b1).
    { unfold inside, b1; simpl.
      repeat split; first [apply Q.le_min_l | apply Q.le_max_l]. }
    assert (P1 : contains b1 (px, py)).
    { unfold contains, b1; simpl.
      repeat split; first [apply Q.le_min_r | apply Q.le_max_r]. }
    split; [exact E|]. split; [exact (inside_trans _ _ _ I0 I1)|]. split.
    + intros p [<-|H]; [|apply C, H].
      destruct I1 as (?&?&?&?), P1 as ((?&?)&(?&?)).
      unfold contains in *; simpl in *. repeat split; lra.
    + intros c Ic Hc. apply L; [|intros p H; apply Hc; right; exact H].
      destruct Ic as (?&?&?&?), (Hc (px, py) (or_introl eq_refl))
        as ((?&?)&(?&?)).
      unfold inside, b1; simpl in *.
      repeat split;
        first [apply Q.min_glb; assumption | apply Q.max_lub; assumption].
Qed.

(** X12: the box of a polyline [M x0 y0 x1 y1 ...], with or without an [L]
    before each further pair and with coordinates that [float] reads as
    finite numbers, is the smallest box around its corners: every corner
    lies in it, and it lies inside every box that holds every corner.  A
    closing [Z] adds nothing to it. *)
Theorem polyline_box p0 corners :
  Forall in_float_range (p0 :: map snd corners) ->
  exists b,
    run initial (polyline_tokens p0 corners) = Returned (Some b) /\
    run initial (polyline_tokens p0 corners ++ [Letter "Z"])
    = Returned (Some b) /\
    (forall p, In p (p0 :: map snd corners) -> contains b p) /\
    (forall c, (forall p, In p (p0 :: map snd corners) -> contains c p) ->
               inside b c).
Proof.
  intros _. destruct p0 as [x0 y0]. unfold polyline_tokens.
  simpl fst. simpl snd.
  set (st1 := mkState x0 y0 x0 y0 (Some (mkBBox x0 y0 x0 y0)) (Some "L"%char)).
  assert (H : forall X,
             run initial (Letter "M" :: Number x0 :: Number y0 :: X)
             = run st1 X).
  { intros X.
    rewrite (run_continue initial (Letter "M") (Number x0 :: Number y0 :: X)
               (mkState 0 0 0 0 None (Some "M"%char))
               (Number x0 :: Number y0 :: X)) by reflexivity.
    apply run_continue. reflexivity. }
  destruct (after_corners_fields st1 (map snd corners)) as (A & C & SX & SY).
  destruct (box_of_points_least (mkBBox x0 y0 x0 y0) (map snd corners))
    as (b & E & I & P & L).
  simpl acc in A. rewrite E in A.
  exists b. split; [|split; [|split]].
  - rewrite <- (app_nil_r (flat_map corner_tokens corners)).
    rewrite H, run_corners by reflexivity.
    simp run. rewrite A. reflexivity.
  - simpl app. rewrite H, run_corners by reflexivity.
    set (st2 := after_corners st1 (map snd corners)) in *.
    rewrite (run_continue st2 (Letter "Z") []
               (mkState (start_x st2) (start_y st2) (start_x st2) (start_y st2)
                  (add_point (start_x st2) (start_y st2) (acc st2))
                  (Some "Z"%char)) []) by reflexivity.
    simp run. simpl acc. f_equal. rewrite SX, SY, A. simpl start_x.
    simpl start_y. unfold inside in I; simpl in I.
    apply add_point_inside; lra.
  - intros p [<-|Hp]; [|apply P, Hp].
    unfold inside in I; simpl in I. unfold contains; simpl. lra.
  - intros c Hc. apply L; [|intros p Hp; apply Hc; right; exact Hp].
    destruct (Hc (x0, y0) (or_introl eq_refl)) as ((?&?)&(?&?)).
    unfold inside; simpl in *. repeat split; assumption.
Qed.

(** A triangle with one corner written after an [L]. *)
Lemma polyline_box_witness :
  exists b,
    run initial (polyline_tokens (0, 0) [(true, (4, 0)); (false, (2, 3))])
    = Returned (Some b) /\
    run initial (polyline_tokens (0, 0) [(true, (4, 0)); (false, (2, 3))]
                 ++ [Letter "Z"])
    = Returned (Some b) /\
    (forall p, In p [(0, 0); (4, 0); (2, 3)] -> contains b p) /\
    (forall c, (forall p, In p [(0, 0); (4, 0); (2, 3)] -> contains c p) ->
               inside b c).
Proof.
  apply (polyline_box (0, 0) [(true, (4, 0)); (false, (2, 3))]).
  repeat constructor; vm_compute; discriminate.
Defined.

(** *** Closepath, and paths without a point *)

Open Scope string_scope.

(** X13: numbers that follow a closepath are skipped one by one; what comes
    after them is read as if they were not there. *)
Theorem numbers_after_closepath_are_skipped st z nums rest :
  in_str z "Zz" = true ->
  run st (Letter z :: map Number nums ++ rest) = run st (Letter z :: rest).
Proof.
  intros Z. apply in_str_pair in Z.
  set (st1 := mkState (start_x st) (start_y st) (start_x st) (start_y st)
                (add_point (start_x st) (start_y st) (acc st)) (Some z)).
  assert (B : forall X, run st (Letter z :: X) = run st1 X).
  { intros X. apply run_continue. destruct Z as [-> | ->]; reflexivity. }
  rewrite !B. induction nums as [|v nums IH]; simpl; [reflexivity|].
  rewrite <- IH. apply run_continue.
  destruct Z as [-> | ->]; reflexivity.
Qed.

Lemma numbers_after_closepath_are_skipped_witness :
  run initial (tokenize "M 1 2 Z 7 8 9 L 3 4")
  = run initial (tokenize "M 1 2 Z L 3 4").
Proof.
  exact (run_prefix "Z" _ _
           (fun st => numbers_after_closepath_are_skipped st "Z" [7; 8; 9]
                        [Letter "L"; Number 3; Number 4] eq_refl)
           [Letter "M"; Number 1; Number 2] initial).
Defined.

(** Only a closepath and the numbers of a command add a point. *)
Definition adds_no_point (t : token) : Prop :=
  match t with
  | Letter c => in_str c "Zz" = false
  | Number _ => False
  end.

Lemma run_letters st toks :
  Forall adds_no_point toks -> run st toks = Returned (acc st).
Proof.
  intros F. revert st. induction F as [|t toks Ht F IH]; intros st.
  - simp run. reflexivity.
  - destruct t as [c|v]; unfold adds_no_point in Ht; [|contradiction].
    rewrite (run_continue st (Letter c) toks
               (mkState (x st) (y st) (start_x st) (start_y st) (acc st)
                        (Some c)) toks).
    + rewrite IH. reflexivity.
    + unfold loop_body. rewrite Ht. reflexivity.
Qed.

(** X14: a path returns no box when it has no token at all, when its first
    token is a number (no command to read it under), and when it holds
    nothing but command letters other than [Z] and [z]. *)
Theorem paths_without_a_point d :
  (tokenize d = [] -> bbox_from_path_d d = Returned None) /\
  (forall v rest, tokenize d = Number v :: rest ->
                  bbox_from_path_d d = Returned None) /\
  (Forall adds_no_point (tokenize d) -> bbox_from_path_d d = Returned None).
Proof.
  unfold bbox_from_path_d. split; [|split].
  - intros ->. reflexivity.
  - intros v rest ->.
    exact (run_break initial (Number v) rest initial eq_refl).
  - intros F. destruct (tokenize d) as [|t toks] eqn:E; [reflexivity|].
    apply (run_letters initial). exact F.
Qed.

Lemma paths_without_a_point_witness :
  bbox_from_path_d "5 5 M 1 1" = Returned None /\
  bbox_from_path_d "M L, q" = Returned None.
Proof.
  split.
  - apply (proj1 (proj2 (paths_without_a_point "5 5 M 1 1")) 5
             [Number 5; Letter "M"; Number 1; Number 1]).
    reflexivity.
  - apply (proj2 (proj2 (paths_without_a_point "M L, q"))).
    vm_compute. repeat constructor.
Defined.

(** X15: a group that is short of numbers.  Under a command that takes [n]
    numbers, fewer than [n] numbers followed by any command letter make
    [float] raise [ValueError], whatever the state and whatever follows;
    fewer than [n] numbers at the very end of the path make the loop break,
    and the box held so far is returned. *)
Theorem short_group_outcome st c n v nums :
  cmd st = Some c -> arity c = Some n -> (S (length nums) < n)%nat ->
  (forall d rest,
      run st (Number v :: map Number nums ++ Letter d :: rest) = ValueError) /\
  run st (Number v :: map Number nums) = Returned (acc st).
Proof. apply run_short_group. Qed.

Lemma short_group_outcome_witness :
  (forall d rest,
      run (mkState 3 3 0 0 (Some (mkBBox 0 0 3 3)) (Some "C"%char))
          (Number 1 :: map Number [2; 3] ++ Letter d :: rest) = ValueError) /\
  run (mkState 3 3 0 0 (Some (mkBBox 0 0 3 3)) (Some "C"%char))
      (Number 1 :: map Number [2; 3])
  = Returned (Some (mkBBox 0 0 3 3)).
Proof.
  apply (short_group_outcome
           (mkState 3 3 0 0 (Some (mkBBox 0 0 3 3)) (Some "C"%char))
           "C" 6 1 [2; 3]);
    [reflexivity | reflexivity | simpl; lia].
Defined.

Close Scope string_scope.

(** *** The tokens *)

Lemma tokenize_match c r t rest :
  scan c r = Some (t, rest) -> tokenize (String c r) = t :: tokenize rest.
Proof.
  intros H. remember (String c r) as d eqn:D.
  funelim (tokenize d); congruence.
Qed.

Lemma tokenize_skip c r :
  scan c r = None -> tokenize (String c r) = tokenize r.
Proof.
  intros H. remember (String c r) as d eqn:D.
  funelim (tokenize d); congruence.
Qed.

(** A letter token is one of the twenty command letters. *)
Definition command_or_number (t : token) : Prop :=
  match t with
  | Letter c => is_command c = true
  | Number _ => True
  end.

Lemma scan_token c r t rest :
  scan c r = Some (t, rest) -> command_or_number t.
Proof.
  unfold scan. destruct (is_command c) eqn:C.
  - intros [= <- _]. exact C.
  - destruct (match_number (String c r)) as [[v s']|]; [|discriminate].
    intros [= <- _]. exact I.
Qed.

(** X16: the tokens of a path are command letters (of the twenty the pattern
    lists) and numbers, and there are at most as many of them as the path
    has characters. *)
Theorem tokenize_tokens d :
  Forall command_or_number (tokenize d) /\
  (length (tokenize d) <= String.length d)%nat.
Proof.
  funelim (tokenize d).
  - split; [constructor | simpl; lia].
  - destruct H as (F & L). pose proof (scan_length _ _ _ _ E) as S.
    split; [|simpl; lia]. constructor; auto.
    eapply scan_token; eauto.
  - destruct H as (F & L). split; [exact F | simpl; lia].
Qed.

(** The mantissa, with the test for the point written as a comparison. *)
Lemma mantissa_eq s :
  mantissa s =
  let (ip, s2) := digits s in
  let whole := if nonempty ip then Some (ip, 0%nat, s2) else None in
  match s2 with
  | String c s3 =>
      if Ascii.eqb c "." then
        let (fp, s4) := digits s3 in
        if nonempty fp then Some ((ip ++ fp)%string, String.length fp, s4)
        else whole
      else whole
  | EmptyString => whole
  end.
Proof.
  unfold mantissa. destruct (digits s) as [ip s2].
  destruct s2 as [|c s3]; [reflexivity|].
  destruct c as [[] [] [] [] [] [] [] []]; reflexivity.
Qed.

Open Scope string_scope.

(** A character that can be part of no token: no command letter, no digit,
    no sign, no point and no exponent mark (a blank, a comma, a line break,
    most letters). *)
Definition is_separator (c : ascii) : bool :=
  negb (in_str c "MmLlHhVvCcSsQqTtAaZz+-.eE" || is_digit c).

Lemma separator_classes c :
  is_separator c = true ->
  is_command c = false /\ is_digit c = false /\
  Ascii.eqb c "+" = false /\ Ascii.eqb c "-" = false /\
  Ascii.eqb c "." = false /\ in_str c "eE" = false.
Proof.
  unfold is_separator, is_command. intros H.
  apply negb_true_iff, orb_false_iff in H. destruct H as (H & D).
  simpl in H. repeat (apply orb_false_iff in H; destruct H as [? H]).
  simpl. repeat split; auto; repeat (apply orb_false_iff; split; auto).
Qed.

Section Separator.

Variables (c : ascii) (s2 : string).
Hypothesis separator : is_separator c = true.

Let sep : string := String c s2.

Lemma digits_sep s :
  digits (s ++ sep) = (fst (digits s), snd (digits s) ++ sep).
Proof.
  destruct (separator_classes c separator) as (_ & D & _).
  induction s as [|d s IH]; simpl.
  - rewrite D. reflexivity.
  - destruct (is_digit d); [|reflexivity].
    rewrite IH. destruct (digits s). reflexivity.
Qed.

Lemma sign_sep s : sign (s ++ sep) = (fst (sign s), snd (sign s) ++ sep).
Proof.
  destruct (separator_classes c separator) as (_ & _ & P & M & _).
  destruct s as [|d r]; simpl.
  - rewrite M, P. reflexivity.
  - destruct (Ascii.eqb d "-"); [reflexivity|].
    destruct (Ascii.eqb d "+"); reflexivity.
Qed.

Lemma mantissa_sep s :
  mantissa (s ++ sep)
  = match mantissa s with
    | Some (ds, frac, r) => Some (ds, frac, r ++ sep)
    | None => None
    end.
Proof.
  destruct (separator_classes c separator) as (_ & _ & _ & _ & T & _).
  rewrite !mantissa_eq, digits_sep. destruct (digits s) as [ip r2].
  cbn [fst snd]. destruct r2 as [|d r3]; cbn [append].
  - unfold sep at 1. rewrite T. destruct (nonempty ip); reflexivity.
  - destruct (Ascii.eqb d ".").
    + rewrite digits_sep. destruct (digits r3) as [fp r4]. cbn [fst snd].
      destruct (nonempty fp); [reflexivity|].
      destruct (nonempty ip); reflexivity.
    + destruct (nonempty ip); reflexivity.
Qed.

Lemma exponent_sep s :
  exponent (s ++ sep) = (fst (exponent s), snd (exponent s) ++ sep).
Proof.
  destruct (separator_classes c separator) as (_ & _ & _ & _ & _ & X).
  destruct s as [|d r]; cbn [append].
  - unfold sep, exponent. rewrite X. reflexivity.
  - unfold exponent. destruct (in_str d "eE"); [|reflexivity].
    rewrite sign_sep. destruct (sign r) as [neg r2]. cbn [fst snd].
    rewrite digits_sep. destruct (digits r2) as [ed r3]. cbn [fst snd].
    destruct (nonempty ed); reflexivity.
Qed.

Lemma match_number_sep s :
  match_number (s ++ sep)
  = match match_number s with
    | Some (v, rest) => Some (v, rest ++ sep)
    | None => None
    end.
Proof.
  unfold match_number. rewrite sign_sep. destruct (sign s) as [neg s1].
  cbn [fst snd]. rewrite mantissa_sep.
  destruct (mantissa s1) as [[[ds frac] r]|]; [|reflexivity].
  rewrite exponent_sep. destruct (exponent r). reflexivity.
Qed.

Lemma scan_sep d r :
  scan d (r ++ sep)
  = match scan d r with
    | Some (t, rest) => Some (t, rest ++ sep)
    | None => None
    end.
Proof.
  unfold scan. destruct (is_command d); [reflexivity|].
  change (String d (r ++ sep)) with (String d r ++ sep).
  rewrite match_number_sep.
  destruct (match_number (String d r)) as [[v rest]|]; reflexivity.
Qed.

Lemma scan_separator : scan c s2 = None.
Proof.
  destruct (separator_classes c separator) as (C & D & P & M & T & _).
  unfold scan. rewrite C. unfold match_number, sign. rewrite M, P.
  rewrite mantissa_eq. cbn [digits]. rewrite D. cbn [nonempty].
  rewrite T. reflexivity.
Qed.

Lemma tokenize_sep n :
  forall s1, (String.length s1 <= n)%nat ->
  tokenize (s1 ++ sep) = (tokenize s1 ++ tokenize s2)%list.
Proof.
  assert (E0 : tokenize ("" ++ sep) = (tokenize "" ++ tokenize s2)%list).
  { cbn [append]. unfold sep. rewrite (tokenize_skip _ _ scan_separator).
    simp tokenize. reflexivity. }
  induction n as [|n IH]; intros s1 L.
  - destruct s1; [exact E0|simpl in L; lia].
  - destruct s1 as [|d r]; [exact E0|]. cbn [append].
    + simpl in L. pose proof (scan_sep d r) as S.
      destruct (scan d r) as [[t rest]|] eqn:E.
      * rewrite (tokenize_match _ _ _ _ S), (tokenize_match _ _ _ _ E).
        apply scan_length in E. rewrite IH by lia. reflexivity.
      * rewrite (tokenize_skip _ _ S), (tokenize_skip _ _ E).
        apply IH. lia.
Qed.

End Separator.

(** X17: a character that can be part of no token separates tokens and
    leaves none of its own: the tokens of a path with such a character in it
    are the tokens of what stands before the character followed by the
    tokens of what stands after it. *)
Theorem tokenize_skips_separators s1 c s2 :
  is_separator c = true ->
  tokenize (s1 ++ String c s2) = (tokenize s1 ++ tokenize s2)%list.
Proof.
  intros H. apply (tokenize_sep c s2 H (String.length s1)). lia.
Qed.

Lemma tokenize_skips_separators_witness :
  tokenize ("M10" ++ String "," "20 L-5e1") 
  = (tokenize "M10" ++ tokenize "20 L-5e1")%list.
Proof.
  apply tokenize_skips_separators. reflexivity.
Defined.

Close Scope string_scope.

(** *** Relative commands *)

Lemma run_step st t rest :
  run st (t :: rest) =
  match loop_body st t rest with
  | Continue st' toks' => run st' toks'
  | Break st' => Returned (acc st')
  | Raise => ValueError
  end.
Proof.
  destruct (loop_body st t rest) eqn:E.
  - apply run_continue. exact E.
  - apply run_break. exact E.
  - apply run_raise. exact E.
Qed.

(** [dx] added to every first and [dy] to every second number of a list of
    pairs. *)
Fixpoint shift_pairs (dx dy : Q) (nums : list Q) : list Q :=
  match nums with
  | a :: b :: rest => (a + dx) :: (b + dy) :: shift_pairs dx dy rest
  | _ => nums
  end.

Open Scope string_scope.

(** The absolute form of the relative commands whose numbers are all
    coordinate pairs. *)
Definition absolute_of (c : ascii) : ascii :=
  if Ascii.eqb c "m" then "M"
  else if Ascii.eqb c "l" then "L"
  else if Ascii.eqb c "c" then "C"
  else if Ascii.eqb c "s" then "S"
  else if Ascii.eqb c "q" then "Q"
  else if Ascii.eqb c "t" then "T"
  else c.

Lemma in_str_six c a1 a2 a3 a4 a5 a6 :
  in_str c (String a1 (String a2 (String a3 (String a4 (String a5
             (String a6 EmptyString)))))) = true ->
  c = a1 \/ c = a2 \/ c = a3 \/ c = a4 \/ c = a5 \/ c = a6.
Proof.
  simpl. rewrite orb_false_r, !orb_true_iff, !Ascii.eqb_eq. tauto.
Qed.

(** One group of a relative command, from any state, against the same group
    under the absolute command with the cursor added; [tail] is the end of
    the path or starts with a command letter. *)
Lemma relative_group st c n args tail :
  in_str c "mlcsqt" = true -> arity c = Some n -> length args = n ->
  tail = [] \/ (exists d rest, tail = Letter d :: rest) ->
  run st (Letter c :: map Number args ++ tail)
  = run st (Letter (absolute_of c)
              :: map Number (shift_pairs (x st) (y st) args) ++ tail).
Proof.
  intros C Ar L T. apply in_str_six in C.
  destruct C as [-> | [-> | [-> | [-> | [-> | ->]]]]];
    injection Ar as <-;
    do 7 (try destruct args as [|? args]); try discriminate;
    destruct T as [-> | (d & rest & ->)];
    cbn [map app shift_pairs];
    rewrite !run_step; cbn -[Qplus add_point run];
    rewrite !run_step; cbn -[Qplus add_point run];
    rewrite ?run_step; cbn -[Qplus add_point run];
    reflexivity.
Qed.

Close Scope string_scope.

Open Scope string_scope.

(** X18: a relative command is the absolute command with the cursor added.
    For [m], [l], [c], [s], [q] and [t], one group of numbers followed by the
    end of the path or by a command letter gives what the absolute letter
    gives for the same numbers with the cursor's [x] added to every first
    and its [y] to every second number. *)
Theorem relative_is_absolute_plus_cursor st c n args :
  in_str c "mlcsqt" = true -> arity c = Some n -> length args = n ->
  run st (Letter c :: map Number args)
  = run st (Letter (absolute_of c)
              :: map Number (shift_pairs (x st) (y st) args)) /\
  forall d rest,
    run st (Letter c :: map Number args ++ Letter d :: rest)
    = run st (Letter (absolute_of c)
                :: map Number (shift_pairs (x st) (y st) args)
                   ++ Letter d :: rest).
Proof.
  intros C Ar L. split.
  - rewrite <- (app_nil_r (map Number args)).
    rewrite <- (app_nil_r (map Number (shift_pairs _ _ _))).
    apply (relative_group st c n); auto.
  - intros d rest. apply (relative_group st c n); eauto.
Qed.

Lemma relative_is_absolute_plus_cursor_witness :
  run (mkState 10 20 0 0 None None)
      [Letter "q"; Number 1; Number 2; Number 3; Number 4]
  = run (mkState 10 20 0 0 None None)
      [Letter "Q"; Number (1 + 10); Number (2 + 20); Number (3 + 10);
       Number (4 + 20)].
Proof.
  exact (proj1 (relative_is_absolute_plus_cursor
                  (mkState 10 20 0 0 None None) "q" 4 [1; 2; 3; 4]
                  eq_refl eq_refl eq_refl)).
Defined.

(** X19: closepath moves the cursor back to the start of the subpath.  A
    relative lineto after [Z] or [z] is offset from the point of the last
    moveto, not from where the path stood before the closepath. *)
Theorem closepath_returns_to_start st z dx dy :
  in_str z "Zz" = true ->
  run st [Letter z; Letter "l"; Number dx; Number dy]
  = run st [Letter z; Letter "L"; Number (dx + start_x st);
            Number (dy + start_y st)] /\
  forall d rest,
    run st (Letter z :: Letter "l" :: Number dx :: Number dy
              :: Letter d :: rest)
    = run st (Letter z :: Letter "L" :: Number (dx + start_x st)
                :: Number (dy + start_y st) :: Letter d :: rest).
Proof.
  intros Z. apply in_str_pair in Z.
  set (st1 := mkState (start_x st) (start_y st) (start_x st) (start_y st)
                (add_point (start_x st) (start_y st) (acc st)) (Some z)).
  assert (B : forall X, run st (Letter z :: X) = run st1 X).
  { intros X. apply run_continue. destruct Z as [-> | ->]; reflexivity. }
  rewrite !B. split.
  - apply (relative_group st1 "l" 2 [dx; dy] []); auto.
  - intros d rest. rewrite !B.
    apply (relative_group st1 "l" 2 [dx; dy] (Letter d :: rest)); eauto.
Qed.

Lemma closepath_returns_to_start_witness :
  run (mkState 5 5 1 2 (Some (mkBBox 1 2 5 5)) (Some "L"%char))
      [Letter "Z"; Letter "l"; Number 10; Number 10]
  = run (mkState 5 5 1 2 (Some (mkBBox 1 2 5 5)) (Some "L"%char))
      [Letter "Z"; Letter "L"; Number (10 + 1); Number (10 + 2)].
Proof.
  exact (proj1 (closepath_returns_to_start
                  (mkState 5 5 1 2 (Some (mkBBox 1 2 5 5)) (Some "L"%char))
                  "Z" 10 10 eq_refl)).
Defined.

Close Scope string_scope.

(** ** The selection of the targets in [main] *)

Definition by_key (key : BBox -> Q) (a b : BBox) : Prop := key a <= key b.

Lemma insert_by_perm key b l : Permutation (insert_by key b l) (b :: l).
Proof.
  induction l as [|c l IH]; simpl; [reflexivity|].
  destruct (Qltb (key c) (key b)); [|reflexivity].
  rewrite IH. apply perm_swap.
Qed.

Lemma sort_by_perm key l : Permutation (sort_by key l) l.
Proof.
  induction l as [|b l IH]; simpl; [reflexivity|].
  rewrite insert_by_perm. constructor. exact IH.
Qed.

Lemma insert_by_sorted key b l :
  StronglySorted (by_key key) l -> StronglySorted (by_key key) (insert_by key b l).
Proof.
  induction 1 as [|c l S IH F]; simpl.
  - constructor; constructor.
  - destruct (Qltb (key c) (key b)) eqn:E.
    + apply Qltb_lt in E. constructor; [exact IH|].
      apply Forall_forall. intros d D.
      apply (Permutation_in _ (insert_by_perm key b l)) in D.
      destruct D as [<-|D]; [unfold by_key; lra|].
      rewrite Forall_forall in F. apply F, D.
    + apply Qltb_ge in E. constructor; [constructor; assumption|].
      constructor; [exact E|].
      apply Forall_forall. intros d D. rewrite Forall_forall in F.
      specialize (F d D). unfold by_key in *. lra.
Qed.

Lemma sort_by_sorted key l : StronglySorted (by_key key) (sort_by key l).
Proof.
  induction l as [|b l IH]; simpl; [constructor|].
  apply insert_by_sorted, IH.
Qed.

Lemma sorted_firstn_skipn key n l :
  StronglySorted (by_key key) l ->
  forall t r, In t (firstn n l) -> In r (skipn n l) -> key t <= key r.
Proof.
  intros S. revert n. induction S as [|c l S IH F]; intros n t r T R.
  - destruct n; destruct T.
  - destruct n as [|n]; [destruct T|]. simpl in T, R.
    destruct T as [<-|T]; [|exact (IH n t r T R)].
    rewrite Forall_forall in F. apply F.
    rewrite <- (firstn_skipn n l). apply in_or_app. right. exact R.
Qed.

Lemma index_from_slice top n k :
  (k + n <= length top)%nat ->
  index_from top k n = Selected (firstn n (skipn k top)).
Proof.
  revert k. induction n as [|n IH]; intros k L; simpl; [reflexivity|].
  destruct (nth_error top k) as [b|] eqn:E.
  - rewrite IH by lia.
    assert (S : skipn k top = b :: skipn (S k) top).
    { clear - E. revert top E. induction k as [|k IH]; intros [|c top] E;
        try discriminate; simpl in *; [congruence|]. apply IH, E. }
    rewrite S. reflexivity.
  - apply nth_error_None in E. lia.
Qed.

(** X25: what the selection picks.  Whenever at least [n] clusters pass the
    size filter, the selection succeeds, and its [n] targets are ordered from
    left to right by [cx], are taken from the clusters that pass the filter,
    and are topmost: no cluster left aside has a smaller [cy] than a target. *)
Theorem select_top_picks_the_top_row n clusters :
  (n <= length (filter plausible clusters))%nat ->
  exists targets aside,
    select_top n clusters = Selected targets /\
    length targets = n /\
    StronglySorted (by_key cx) targets /\
    Permutation (filter plausible clusters) (targets ++ aside) /\
    (forall t r, In t targets -> In r aside -> cy t <= cy r).
Proof.
  intros L. set (sorted := sort_by cy (filter plausible clusters)).
  assert (SL : length sorted = length (filter plausible clusters))
    by apply sort_by_length.
  assert (TL : length (sort_by cx (firstn n sorted)) = n).
  { rewrite sort_by_length, length_firstn. lia. }
  exists (sort_by cx (firstn n sorted)), (skipn n sorted).
  split; [|split; [|split; [|split]]].
  - unfold select_top. fold sorted. rewrite index_from_slice by (rewrite TL; lia).
    simpl skipn. rewrite <- TL at 1. rewrite firstn_all. reflexivity.
  - exact TL.
  - apply sort_by_sorted.
  - rewrite sort_by_perm, firstn_skipn. symmetry. apply sort_by_perm.
  - intros t r T R. apply (Permutation_in _ (sort_by_perm cx _)) in T.
    exact (sorted_firstn_skipn cy n sorted (sort_by_sorted cy _) t r T R).
Qed.

Lemma select_top_picks_the_top_row_witness :
  exists targets aside,
    select_top 1 [mkBBox 0 100 100 200; mkBBox 0 0 100 100] = Selected targets /\
    length targets = 1%nat /\
    StronglySorted (by_key cx) targets /\
    Permutation (filter plausible [mkBBox 0 100 100 200; mkBBox 0 0 100 100])
      (targets ++ aside) /\
    (forall t r, In t targets -> In r aside -> cy t <= cy r).
Proof.
  apply (select_top_picks_the_top_row 1
           [mkBBox 0 100 100 200; mkBBox 0 0 100 100]).
  vm_compute. repeat constructor.
Defined.
